(** * Verification of the document indexing and retrieval pipeline of [src/main.js]

    The development embeds the functions of [src/main.js] that carry the
    algorithmic content of the application: the chunk splitter [chunkText],
    the similarity function [cosineSimilarity] with the ranking step of
    [runChatTurn], the two recursive correction procedures of the PDF handler
    ([ensureChunkSize], [processChunkSafe]), the index invalidation of
    [loadModel] and the streaming/fallback control flow of [runChatTurn].

    Conventions.
    - A JavaScript string is the list of its UTF-16 code units ([N]).
    - A JavaScript number used as an index is a [Z]; the arithmetic the code
      performs on indices stays far below 2^53, where doubles are exact.
    - A JavaScript number used as a score is a binary64 value ([float]).
    - Calls into the inference runtime are parameters of the model. *)

From Stdlib Require Import String Ascii.
From Stdlib Require Import List ZArith NArith Lia Bool.
From Stdlib Require Import Permutation Sorted.
From Stdlib Require Import Floats.
Import ListNotations.

(* ===================================================================== *)
(** * JavaScript string primitives *)
(* ===================================================================== *)

Module JsString.

(** A UTF-16 code unit. *)
Definition codeUnit := N.

Definition jsstring := list codeUnit.

(** Literals of the source that are plain ASCII. *)
Fixpoint lit (s : string) : jsstring :=
  match s with
  | EmptyString => []
  | String c s' => N_of_ascii c :: lit s'
  end.

(** [s.length] *)
Definition len (s : jsstring) : Z := Z.of_nat (length s).

(** ECMAScript WhiteSpace and LineTerminator code points, the characters
    [String.prototype.trim] strips. *)
Definition is_ws (c : codeUnit) : bool :=
  ((9 <=? c) && (c <=? 13) || (c =? 32) || (c =? 160) || (c =? 5760)
   || (8192 <=? c) && (c <=? 8202) || (c =? 8232) || (c =? 8233)
   || (c =? 8239) || (c =? 8287) || (c =? 12288) || (c =? 65279))%N.

Fixpoint trimStart (s : jsstring) : jsstring :=
  match s with
  | [] => []
  | c :: s' => if is_ws c then trimStart s' else s
  end.

Definition trimEnd (s : jsstring) : jsstring := rev (trimStart (rev s)).

(** [s.trim()] *)
Definition trim (s : jsstring) : jsstring := trimEnd (trimStart s).

(** An index argument of [substring] is clamped into [0, s.length]. *)
Definition clamp (n x : Z) : Z := Z.max 0 (Z.min x n).

(** [s.substring(a, b)]: both arguments clamped, then swapped when
    [a > b]. *)
Definition substring (s : jsstring) (a b : Z) : jsstring :=
  let a' := clamp (len s) a in
  let b' := clamp (len s) b in
  let lo := Z.min a' b' in
  let hi := Z.max a' b' in
  firstn (Z.to_nat (hi - lo)) (skipn (Z.to_nat lo) s).

(** [s.substring(a)] *)
Definition substring_from (s : jsstring) (a : Z) : jsstring :=
  substring s a (len s).

Fixpoint starts_with (pat s : jsstring) : bool :=
  match pat, s with
  | [], _ => true
  | _ :: _, [] => false
  | p :: pat', c :: s' => (p =? c)%N && starts_with pat' s'
  end.

(** Scan of [s] whose first unit has index [k]: the greatest index at
    which [pat] occurs, or [-1]. *)
Fixpoint lastIndexOf_from (pat s : jsstring) (k : Z) : Z :=
  match s with
  | [] => if starts_with pat [] then k else -1
  | _ :: s' =>
      let r := lastIndexOf_from pat s' (k + 1) in
      if r =? -1 then (if starts_with pat s then k else -1) else r
  end%Z.

(** [s.lastIndexOf(pat)] *)
Definition lastIndexOf (s pat : jsstring) : Z := lastIndexOf_from pat s 0.

(** [a === b] on strings. *)
Fixpoint eqb (a b : jsstring) : bool :=
  match a, b with
  | [], [] => true
  | x :: a', y :: b' => (x =? y)%N && eqb a' b'
  | _, _ => false
  end.

(** [parts.join(sep)] *)
Fixpoint join (sep : jsstring) (parts : list jsstring) : jsstring :=
  match parts with
  | [] => []
  | [p] => p
  | p :: rest => p ++ sep ++ join sep rest
  end.

(** A string is truthy when it is not empty. *)
Definition truthy (s : jsstring) : bool :=
  match s with [] => false | _ => true end.

End JsString.

Import JsString.
Local Open Scope Z_scope.

(* ===================================================================== *)
(** * ChunkSplitter: [chunkText] *)
(* ===================================================================== *)

Module Chunker.

(** The nested conditional that selects the break inside the search
    window: after the last [". "], else at the last newline, else at the
    last space, else [-1]. *)
Definition breakIdx (searchWindow : jsstring) : Z :=
  if negb (lastIndexOf searchWindow (lit ". ") =? -1)
  then lastIndexOf searchWindow (lit ". ") + 1
  else if negb (lastIndexOf searchWindow [10%N] =? -1)
       then lastIndexOf searchWindow [10%N]
       else lastIndexOf searchWindow [32%N].

(** The value of [end] when the fragment starting at [i] is pushed. *)
Definition cutPoint (text : jsstring) (size i : Z) : Z :=
  let end_ := i + size in
  if end_ <? len text then
    let searchWindow := substring text (end_ - 100) (end_ + 20) in
    if negb (breakIdx searchWindow =? -1)
    then (end_ - 100) + breakIdx searchWindow + 1
    else end_
  else end_.

(** The three statements that update [i] after a push, the "safety exit"
    included. *)
Definition nextCursor (text : jsstring) (overlap end_ : Z) : Z :=
  let i := end_ - overlap in
  let i := if i <? 0 then 0 else i in
  if (end_ <=? i + overlap) && (end_ <? len text) then end_ else i.

(** The [while] loop. [None]: the loop is still running when [fuel]
    iterations have been made. *)
Fixpoint chunkLoop (fuel : nat) (text : jsstring) (size overlap i : Z)
    (chunks : list jsstring) : option (list jsstring) :=
  if i <? len text then
    match fuel with
    | O => None
    | S fuel' =>
        let end_ := cutPoint text size i in
        chunkLoop fuel' text size overlap (nextCursor text overlap end_)
          (chunks ++ [trim (substring text i end_)])
    end
  else Some chunks.

(** [chunkText(text, size, overlap)] *)
Definition chunkText (fuel : nat) (text : jsstring) (size overlap : Z)
    : option (list jsstring) :=
  option_map (filter (fun c => 10 <? len c))
    (chunkLoop fuel text size overlap 0 []).

(** [chunkText(text)], the call of the PDF handler, with as many
    iterations allowed as the text has characters. *)
Definition chunkTextDefault (text : jsstring) : option (list jsstring) :=
  chunkText (length text) text 600 100.

(** The same loop, recording for every push the pair [(i, end)] of
    arguments given to [substring]: the source window of the fragment. *)
Fixpoint windowLoop (fuel : nat) (text : jsstring) (size overlap i : Z)
    (windows : list (Z * Z)) : option (list (Z * Z)) :=
  if i <? len text then
    match fuel with
    | O => None
    | S fuel' =>
        let end_ := cutPoint text size i in
        windowLoop fuel' text size overlap (nextCursor text overlap end_)
          (windows ++ [(i, end_)])
    end
  else Some windows.

(** The fragment pushed for a window. *)
Definition fragmentOf (text : jsstring) (w : Z * Z) : jsstring :=
  trim (substring text (fst w) (snd w)).

(** The windows whose fragment survives the final filter. *)
Definition keptWindows (text : jsstring) (windows : list (Z * Z)) : list (Z * Z) :=
  filter (fun w => 10 <? len (fragmentOf text w)) windows.

(** Position [p] of the text lies inside window [w]. *)
Definition inWindow (p : Z) (w : Z * Z) : Prop := fst w <= p < snd w.

(** Test text: [n] distinct non-blank code units, the unit at position
    [k] being [1000 + k]. *)
Definition ramp (n : nat) : jsstring := map (fun k => N.of_nat (1000 + k)) (seq 0 n).

End Chunker.

(* ===================================================================== *)
(** * SimilarityRanker: [cosineSimilarity] and the ranking of [runChatTurn] *)
(* ===================================================================== *)

Module Similarity.

Local Open Scope float_scope.

Definition vector := list float.

(** [v[i]] as an operand of [*]: a read past the end gives [undefined],
    which the multiplication turns into NaN. *)
Definition elem (v : vector) (i : nat) : float := nth i v nan.

(** One iteration of the [for] loop on [(dot, m1, m2)]. *)
Definition cosineStep (v1 v2 : vector) (acc : float * float * float) (i : nat)
    : float * float * float :=
  let '(dot, m1, m2) := acc in
  (dot + elem v1 i * elem v2 i,
   m1 + elem v1 i * elem v1 i,
   m2 + elem v2 i * elem v2 i).

(** [cosineSimilarity(v1, v2)] *)
Definition cosineSimilarity (v1 v2 : vector) : float :=
  let '(dot, m1, m2) :=
    fold_left (cosineStep v1 v2) (seq 0 (length v1)) (0, 0, 0) in
  dot / (sqrt m1 * sqrt m2).

Record Scored := { idx : nat; score : float }.

(** [embeddings.map((emb, idx) => ({idx, score: ...}))], from index [k]. *)
Fixpoint scoresFrom (queryEmbedding : vector) (embeddings : list vector) (k : nat)
    : list Scored :=
  match embeddings with
  | [] => []
  | emb :: rest =>
      {| idx := k; score := cosineSimilarity queryEmbedding emb |}
      :: scoresFrom queryEmbedding rest (S k)
  end.

(** The comparator [(a, b) => b.score - a.score]. *)
Definition byScoreDesc (a b : Scored) : float := score b - score a.

Section Sort.
Context {A : Type}.
Variable comparefn : A -> A -> float.

(** [Array.prototype.sort(comparefn)]. ECMAScript fixes the result for a
    consistent comparator (the stable sorted permutation) and leaves the
    algorithm open; the model is the stable insertion sort. A comparator
    result that is positive puts the first argument after the second; a NaN
    result counts as [+0]. When the comparator is not consistent (a NaN
    score among several numbers) the order is the engine's own: the
    statements below then rely on the result being a permutation only, and
    fix the order where every score is a number or every comparison is
    NaN. *)
Fixpoint insertSorted (x : A) (l : list A) : list A :=
  match l with
  | [] => [x]
  | y :: l' => if 0 <? comparefn x y then y :: insertSorted x l' else x :: l
  end.

Fixpoint sort (l : list A) : list A :=
  match l with
  | [] => []
  | x :: l' => insertSorted x (sort l')
  end.

End Sort.

(** [scores.sort(...)] followed by [scores.slice(0, 3)]. *)
Definition rank (queryEmbedding : vector) (embeddings : list vector) : list Scored :=
  sort byScoreDesc (scoresFrom queryEmbedding embeddings 0).

Definition top3 (queryEmbedding : vector) (embeddings : list vector) : list Scored :=
  firstn 3 (rank queryEmbedding embeddings).

Definition is_nan (x : float) : bool := negb (x =? x).

(** [a] is ranked before [b]: its score is greater, or the scores are
    equal and [a] comes first in the original order. *)
Definition before (a b : Scored) : bool :=
  (score b <? score a) || ((score a =? score b) && (idx a <? idx b)%nat).

Definition ranked (l : list Scored) : Prop :=
  StronglySorted (fun a b => before a b = true) l.

Definition scoreIsNumber (s : Scored) : Prop := is_nan (score s) = false.

(** An entry pairs the position of a stored embedding, counted from [k],
    with its similarity to the query. *)
Definition scoredFrom (q : vector) (embs : list vector) (k : nat) (s : Scored) : Prop :=
  exists e, (k <= idx s)%nat /\ nth_error embs (idx s - k) = Some e
            /\ score s = cosineSimilarity q e.

(** Test data: a query, and four stored embeddings of the same dimension
    of which the first three have zero magnitude and the last is the query
    itself. *)
Definition probeQuery : vector := [1; 0].

Definition probeStored : list vector := [[0; 0]; [0; 0]; [0; 0]; [1; 0]].

(** Test data: a query of zero magnitude and four stored embeddings. *)
Definition zeroQuery : vector := [0; 0].

Definition unitStored : list vector := [[1; 0]; [0; 1]; [1; 0]; [0; 1]].

End Similarity.

(* ===================================================================== *)
(** * IndexingPipeline: [ensureChunkSize] and [processChunkSafe] *)
(* ===================================================================== *)

Module Indexing.

Import Similarity.

Section TokenSize.

(** [wllama.tokenize]: the token ids of a text. *)
Variable tokenize : jsstring -> list Z.

(** [tokens.length] *)
Definition tokens (text : jsstring) : Z := Z.of_nat (length (tokenize text)).

Definition withinThreshold (c : jsstring) : Prop := tokens c <= 300.

(** Where [ensureChunkSize] cuts a text that is over the threshold. *)
Definition splitIdx (text : jsstring) : Z :=
  let mid := len text / 2 in
  let searchWindow := substring text (mid - 50) (mid + 50) in
  let spaceRelative := lastIndexOf searchWindow [32%N] in
  if negb (spaceRelative =? -1) then mid - 50 + spaceRelative else mid.

Definition leftOf (text : jsstring) : jsstring :=
  trim (substring text 0 (splitIdx text)).

Definition rightOf (text : jsstring) : jsstring :=
  trim (substring_from text (splitIdx text)).

(** [ensureChunkSize(text)]. [None]: the recursion is deeper than [fuel]. *)
Fixpoint ensureChunkSize (fuel : nat) (text : jsstring) : option (list jsstring) :=
  match fuel with
  | O => None
  | S fuel' =>
      if tokens text <=? 300 then Some [text]
      else
        match (if truthy (leftOf text)
               then ensureChunkSize fuel' (leftOf text) else Some []) with
        | None => None
        | Some ls =>
            match (if truthy (rightOf text)
                   then ensureChunkSize fuel' (rightOf text) else Some []) with
            | None => None
            | Some rs => Some (ls ++ rs)
            end
        end
  end.

End TokenSize.

(** The two halves [processChunkSafe] retries after a failure. *)
Definition leftHalf (text : jsstring) : jsstring :=
  trim (substring text 0 (len text / 2)).

Definition rightHalf (text : jsstring) : jsstring :=
  trim (substring_from text (len text / 2)).

Section Embedding.

(** The inference runtime as the embedding loop sees it: a state and the
    call [wllama.embeddings(text)], which returns a vector or rejects. *)
Variable Runtime : Type.
Variable embeddings : Runtime -> jsstring -> Runtime * option vector.

(** The arrays [embeddings] and [safeChunks] of the handler, with the
    runtime. *)
Record Acc := {
  runtime : Runtime;
  vectors : list vector;
  safeChunks : list jsstring
}.

(** [processChunkSafe(text)]. [None]: the recursion is deeper than [fuel]. *)
Fixpoint processChunkSafe (fuel : nat) (acc : Acc) (text : jsstring) : option Acc :=
  match fuel with
  | O => None
  | S fuel' =>
      match embeddings (runtime acc) text with
      | (rt, Some output) =>
          Some {| runtime := rt;
                  vectors := vectors acc ++ [output];
                  safeChunks := safeChunks acc ++ [text] |}
      | (rt, None) =>
          let acc := {| runtime := rt; vectors := vectors acc;
                        safeChunks := safeChunks acc |} in
          if len text <? 10 then Some acc
          else
            match (if truthy (leftHalf text)
                   then processChunkSafe fuel' acc (leftHalf text)
                   else Some acc) with
            | None => None
            | Some acc' =>
                if truthy (rightHalf text)
                then processChunkSafe fuel' acc' (rightHalf text)
                else Some acc'
            end
      end
  end.

(** A runtime that also records the texts it is asked to embed, in call
    order. *)
Definition recording (rt : Runtime * list jsstring) (text : jsstring)
    : (Runtime * list jsstring) * option vector :=
  let '(r, o) := embeddings (fst rt) text in ((r, snd rt ++ [text]), o).

End Embedding.

Arguments runtime {Runtime} _.
Arguments vectors {Runtime} _.
Arguments safeChunks {Runtime} _.
Arguments processChunkSafe {Runtime} embeddings fuel acc text.
Arguments recording {Runtime} embeddings rt text.

(** Test tokenizers: one token for each code unit; 301 tokens for every
    text. *)
Definition perUnit (text : jsstring) : list Z := map Z.of_N text.

Definition verbose (text : jsstring) : list Z := repeat 0 301.

(** Test runtime, without state: it rejects every text of 10 units or
    more and embeds the others. *)
Definition shortOnly (rt : unit) (text : jsstring) : unit * option vector :=
  (rt, if len text <? 10 then Some [1%float] else None).

(** Test run: the accumulator before the first chunk, and the one
    [processChunkSafe] reaches from it on ["abcdefghij"] with the recording
    [shortOnly] runtime. *)
Definition freshAcc : Acc (unit * list jsstring) :=
  {| runtime := (tt, []); vectors := []; safeChunks := [] |}.

Definition tenUnitsAcc : Acc (unit * list jsstring) :=
  {| runtime := (tt, [lit "abcdefghij"; lit "abcde"; lit "fghij"]);
     vectors := [[1%float]; [1%float]];
     safeChunks := [lit "abcde"; lit "fghij"] |}.

End Indexing.

(* ===================================================================== *)
(** * DocumentIndex and the model switch of [loadModel] *)
(* ===================================================================== *)

Module ModelSwitch.

Import Similarity.

(** The global [docState]. *)
Record DocState := {
  name : jsstring;
  chunks : list jsstring;
  embeddings : list vector;
  modelUrl : jsstring
}.

(** The globals and controls [loadModel] reads or writes. [wllama] tells
    whether the global holds a runtime object. Status texts are not kept. *)
Record App := {
  wllama : bool;
  activeNBatch : Z;
  docState : DocState;
  warn : jsstring;
  btnLoadDisabled : bool;
  btnSendDisabled : bool;
  btnLoadText : jsstring
}.

Definition modelSwitchedWarning : jsstring :=
  [9888%N; 65039%N]
  ++ lit " Model switched. Please re-upload your PDF to re-index it for the new model.".

(** [docState.embeddings = []] *)
Definition clearEmbeddings (d : DocState) : DocState :=
  {| name := name d; chunks := chunks d; embeddings := [];
     modelUrl := modelUrl d |}.

(** The test that guards the invalidation. *)
Definition indexIsStale (d : DocState) (selected : jsstring) : bool :=
  (0 <? Z.of_nat (length (chunks d))) && negb (eqb (modelUrl d) selected).

(** [loadModel(forcedNBatch)]. [selected] is [modelSelector.value];
    [loadResolves] tells whether [wllama.loadModelFromUrl] resolves or
    rejects. A rejection of [wllama.exit()] is caught and changes nothing. *)
Definition loadModel (forcedNBatch : option Z) (selected : jsstring)
    (loadResolves : bool) (app : App) : App :=
  if btnLoadDisabled app && negb (wllama app) then app
  else
    let batchToUse :=
      match forcedNBatch with
      | Some n => if n =? 0 then 1024 else n
      | None => 1024
      end in
    if negb (truthy selected) then
      (* "No model selected." is thrown before a runtime is created *)
      {| wllama := false; activeNBatch := batchToUse; docState := docState app;
         warn := []; btnLoadDisabled := false;
         btnSendDisabled := btnSendDisabled app; btnLoadText := btnLoadText app |}
    else if negb loadResolves then
      {| wllama := true; activeNBatch := batchToUse; docState := docState app;
         warn := []; btnLoadDisabled := false;
         btnSendDisabled := btnSendDisabled app; btnLoadText := btnLoadText app |}
    else
      let stale := indexIsStale (docState app) selected in
      {| wllama := true; activeNBatch := batchToUse;
         docState := if stale then clearEmbeddings (docState app) else docState app;
         warn := if stale then modelSwitchedWarning else [];
         btnLoadDisabled := false; btnSendDisabled := false;
         btnLoadText := lit "Switch model" |}.

(** Test data: an application with the model [tinyllama] loaded and a
    document of two fragments indexed with it. *)
Definition tinyllama : jsstring := lit "/models/tinyllama-q4.gguf".

Definition qwen : jsstring := lit "/models/qwen2-0.5b-q4.gguf".

Definition indexedApp : App :=
  {| wllama := true; activeNBatch := 1024;
     docState := {| name := lit "report.pdf";
                    chunks := [lit "Paris is the capital of France.";
                               lit "Lyon is a major city."];
                    embeddings := [[1; 0]; [0; 1]]%float;
                    modelUrl := tinyllama |};
     warn := []; btnLoadDisabled := false; btnSendDisabled := false;
     btnLoadText := lit "Switch model" |}.

End ModelSwitch.

(* ===================================================================== *)
(** * ChatOrchestrator: [runChatTurn] *)
(* ===================================================================== *)

Module Chat.

Import Similarity ModelSwitch.
Local Set Warnings "-inexact-float".

Inductive Role := system | user | assistant.

Record ChatMessage := { role : Role; content : jsstring }.

Record Sampling := {
  temp : float;
  top_p : option float;
  penalty_repeat : option float
}.

(** The options object given to [createChatCompletion]; an absent field
    is [None], [abortSignal] tells whether a signal is passed. *)
Record CompletionOptions := {
  stream : bool;
  useCache : option bool;
  nPredict : Z;
  abortSignal : bool;
  sampling : Sampling
}.

Definition streamOptions : CompletionOptions :=
  {| stream := true; useCache := Some true; nPredict := 512; abortSignal := true;
     sampling := {| temp := 0.2; top_p := Some 0.9%float;
                    penalty_repeat := Some 1.1%float |} |}.

Definition fallbackOptions : CompletionOptions :=
  {| stream := false; useCache := None; nPredict := 128; abortSignal := false;
     sampling := {| temp := 0.1; top_p := None; penalty_repeat := None |} |}.

(** One element of the stream: [piece] (bytes) and [currentText], either
    of which may be missing. *)
Record StreamChunk := {
  piece : option (list N);
  currentText : option jsstring
}.

(** What a streaming request gives: a rejection, or the chunks the
    iteration yields and, when the iteration throws, the error that ends
    it. *)
Definition StreamOutcome : Type := jsstring + (list StreamChunk * option jsstring).

(** What a non-streaming request gives: a rejection or the text. *)
Definition TextOutcome : Type := jsstring + jsstring.

Definition contextBlock (chunks : list jsstring) (top : list Scored) : jsstring :=
  [10%N] ++ lit "Context from document:" ++ [10%N]
  ++ join [10%N]
       (map (fun s => lit "--- DOCUMENT FRAGMENT ---" ++ [10%N]
                      ++ nth (idx s) chunks (lit "undefined")) top)
  ++ [10%N].

Definition contextSkippedWarning : jsstring :=
  [9888%N; 65039%N]
  ++ lit " Context skipped: Please re-upload PDF to generate embeddings.".

Section Turn.

(** The inference runtime, the abort signal and the [TextDecoder]. *)
Variable World : Type.
Variable setOptions : World -> bool -> World.
Variable embed : World -> jsstring -> World * (jsstring + vector).
Variable completeStream :
  World -> list ChatMessage -> CompletionOptions -> World * StreamOutcome.
Variable completeText :
  World -> list ChatMessage -> CompletionOptions -> World * TextOutcome.
Variable aborted : World -> bool.
Variable Decoder : Type.
Variable decoder0 : Decoder.
Variable decode : Decoder -> list N -> Decoder * jsstring.

(** The state of a turn: the runtime, the global [messages], the warning
    line and the text of the assistant bubble of this turn. *)
Record Session := {
  world : World;
  messages : list ChatMessage;
  warning : jsstring;
  assistantDiv : jsstring
}.

(** Step 1, retrieval: the new session and [contextToInject]. The caller
    guarantees that a runtime is loaded. *)
Definition retrieval (doc : DocState) (s : Session) (userText : jsstring)
    : Session * jsstring :=
  if 0 <? Z.of_nat (length (chunks doc)) then
    if Z.of_nat (length (embeddings doc)) =? 0 then
      ({| world := world s; messages := messages s;
          warning := contextSkippedWarning; assistantDiv := assistantDiv s |}, [])
    else
      match embed (setOptions (world s) true) userText with
      | (w, inr queryEmbedding) =>
          ({| world := w; messages := messages s; warning := warning s;
              assistantDiv := assistantDiv s |},
           contextBlock (chunks doc) (top3 queryEmbedding (embeddings doc)))
      | (w, inl message) =>
          ({| world := w; messages := messages s;
              warning := lit "RAG Error: " ++ message;
              assistantDiv := assistantDiv s |}, [])
      end
  else (s, []).

(** The body of the [for await] loop on [(decoder, acc, bubble text)]. *)
Definition consumeChunk (st : Decoder * jsstring * jsstring) (chunk : StreamChunk)
    : Decoder * jsstring * jsstring :=
  let '(d, acc, shown) := st in
  let fromText :=
    match currentText chunk with
    | Some t => if len acc <? len t then t else acc
    | None => acc
    end in
  let '(d', acc') :=
    match piece chunk with
    | Some bytes =>
        if 0 <? Z.of_nat (length bytes)
        then let '(d1, s) := decode d bytes in (d1, acc ++ s)
        else (d, fromText)
    | None => (d, fromText)
    end in
  (d', acc', if 0 <? len acc' then acc' else shown).

(** The value of [acc] when the stream [chunks] has been consumed. *)
Definition accumulated (chunks : list StreamChunk) : jsstring :=
  snd (fst (fold_left consumeChunk chunks (decoder0, [], []))).

(** The [catch] clause. *)
Definition onError (s : Session) (w : World) (acc message : jsstring) : Session :=
  if aborted w then
    {| world := w;
       messages := messages s ++ [{| role := assistant; content := acc |}];
       warning := warning s;
       assistantDiv := acc ++ [10%N; 10%N] ++ lit "[stopped]" |}
  else
    {| world := w; messages := messages s; warning := warning s;
       assistantDiv := lit "Error: " ++ message |}.

(** Normal completion: the bubble shows [shown] and [acc] is pushed on the
    history. *)
Definition onDone (s : Session) (w : World) (acc shown : jsstring) : Session :=
  {| world := w;
     messages := messages s ++ [{| role := assistant; content := acc |}];
     warning := warning s; assistantDiv := shown |}.

(** Step 2, inference: from [wllama.setOptions({embeddings: false})] to the
    end of the [try] statement. The history of [s] already ends with the
    user message and the assistant bubble has just been created empty. *)
Definition generation (s : Session) : Session :=
  match completeStream (setOptions (world s) false) (messages s) streamOptions with
  | (w1, inl message) => onError s w1 [] message
  | (w1, inr (chunks, ending)) =>
      let '(_, acc, shown) := fold_left consumeChunk chunks (decoder0, [], []) in
      match ending with
      | Some message => onError s w1 acc message
      | None =>
          if (len acc =? 0) && negb (aborted w1) then
            match completeText w1 (messages s) fallbackOptions with
            | (w2, inr fallback) => onDone s w2 fallback fallback
            | (w2, inl message) => onError s w2 acc message
            end
          else onDone s w1 acc shown
      end
  end.

(** [runChatTurn(userText)] *)
Definition runChatTurn (doc : DocState) (s : Session) (userText : jsstring)
    : Session :=
  let '(s1, contextToInject) := retrieval doc s userText in
  generation
    {| world := world s1;
       messages := messages s1
                   ++ [{| role := user; content := userText ++ contextToInject |}];
       warning := warning s1; assistantDiv := [] |}.

(** A runtime that also records the options of every completion request
    it receives, in call order. *)
Definition Recorded : Type := World * list CompletionOptions.

Definition recSetOptions (r : Recorded) (b : bool) : Recorded :=
  (setOptions (fst r) b, snd r).

Definition recStream (r : Recorded) (msgs : list ChatMessage) (o : CompletionOptions)
    : Recorded * StreamOutcome :=
  let '(w, out) := completeStream (fst r) msgs o in ((w, snd r ++ [o]), out).

Definition recText (r : Recorded) (msgs : list ChatMessage) (o : CompletionOptions)
    : Recorded * TextOutcome :=
  let '(w, out) := completeText (fst r) msgs o in ((w, snd r ++ [o]), out).

Definition recAborted (r : Recorded) : bool := aborted (fst r).

End Turn.

Arguments world {World} _.
Arguments messages {World} _.
Arguments warning {World} _.
Arguments assistantDiv {World} _.
Arguments retrieval {World} setOptions embed doc s userText.
Arguments generation {World} setOptions completeStream completeText aborted
  {Decoder} decoder0 decode s.
Arguments runChatTurn {World} setOptions embed completeStream completeText aborted
  {Decoder} decoder0 decode doc s userText.
Arguments recSetOptions {World} setOptions r b.
Arguments recStream {World} completeStream r msgs o.
Arguments recText {World} completeText r msgs o.
Arguments recAborted {World} aborted r.
Arguments consumeChunk {Decoder} decode st chunk.
Arguments accumulated {Decoder} decoder0 decode chunks.
Arguments onError {World} aborted s w acc message.
Arguments onDone {World} s w acc shown.

(** Test runtime, without state: mode switches do nothing, the query
    embedding is [v], a streaming request yields an empty stream that ends
    normally, a non-streaming request returns ["Hello"], and the turn is
    never cancelled. The test decoder maps each byte to one code unit. *)
Definition quietSetOptions (w : unit) (b : bool) : unit := w.

Definition embedAs (v : vector) (w : unit) (text : jsstring)
    : unit * (jsstring + vector) := (w, inr v).

Definition emptyStream (w : unit) (msgs : list ChatMessage) (o : CompletionOptions)
    : unit * StreamOutcome := (w, inr ([], None)).

Definition helloText (w : unit) (msgs : list ChatMessage) (o : CompletionOptions)
    : unit * TextOutcome := (w, inr (lit "Hello")).

Definition neverAborted (w : unit) : bool := false.

Definition byteDecoder (d : unit) (bytes : list N) : unit * jsstring := (d, bytes).

(** Test document: four fragments with the embeddings [stored]. *)
Definition fourFragments (stored : list vector) : DocState :=
  {| name := lit "probe.pdf";
     chunks := [lit "fragment zero"; lit "fragment one";
                lit "fragment two"; lit "fragment three"];
     embeddings := stored;
     modelUrl := lit "/models/tinyllama-q4.gguf" |}.

(** The same session on the recording runtime, no request made yet. *)
Definition freshRecorded : Session (Recorded unit) :=
  {| world := (tt, []);
     messages := [{| role := system;
                     content := lit "You are a helpful assistant. Keep answers concise. If unsure, say you are unsure." |};
                  {| role := user; content := lit "What is the capital of France?" |}];
     warning := []; assistantDiv := [] |}.

Definition freshSession : Session unit :=
  {| world := tt;
     messages := [{| role := system;
                     content := lit "You are a helpful assistant. Keep answers concise. If unsure, say you are unsure." |}];
     warning := []; assistantDiv := [] |}.

End Chat.

(* ===================================================================== *)
(** * Vocabulary for the properties of the text functions *)
(* ===================================================================== *)

Module TextProps.

(** The code units of [s] that are not whitespace, in order: what [trim]
    never removes. *)
Definition nonBlank (s : jsstring) : jsstring :=
  filter (fun c => negb (is_ws c)) s.

(** [s] holds whitespace only. *)
Definition blank (s : jsstring) : Prop := Forall (fun c => is_ws c = true) s.

Definition nonEmpty (s : jsstring) : Prop := s <> [].

(** Neither the first nor the last unit of [s] is whitespace. *)
Definition trimmed (s : jsstring) : Prop :=
  (forall c, hd_error s = Some c -> is_ws c = false)
  /\ (forall c, hd_error (rev s) = Some c -> is_ws c = false).

(** Each window of [ws] starts where the one before it was cut, or
    [overlap] units earlier when that cut is not before position [n]. *)
Fixpoint chained (n overlap : Z) (ws : list (Z * Z)) : Prop :=
  match ws with
  | w1 :: (w2 :: _) as rest =>
      (if snd w1 <? n then fst w2 = snd w1 else fst w2 = snd w1 - overlap)
      /\ chained n overlap rest
  | _ => True
  end.

(** The default windows: they start inside the text and span between 501
    and 620 positions. *)
Definition defaultWindow (w : Z * Z) : Prop :=
  0 <= fst w /\ fst w + 501 <= snd w <= fst w + 620.

(** The cursor and the windows of the default call, at every iteration. *)
Definition defaultInvariant (text : jsstring) (i : Z) (ws : list (Z * Z)) : Prop :=
  0 <= i
  /\ Forall defaultWindow ws
  /\ chained (len text) 100 ws
  /\ (forall w, hd_error ws = Some w -> fst w = 0)
  /\ (ws = [] /\ i = 0
      \/ exists l w, ws = l ++ [w]
                     /\ i = (if snd w <? len text then snd w else snd w - 100)).

End TextProps.

(* ===================================================================== *)
(** * IndexingPipeline: the [pdfInput.onchange] handler *)
(* ===================================================================== *)

Module Pipeline.

Import Similarity Indexing ModelSwitch Chunker.

(** [textContent.items.map(item => item.str).join(" ") + "\n"], on the
    [str] fields of the items of one page. *)
Definition pageText (items : list jsstring) : jsstring :=
  join [32%N] items ++ [10%N].

(** [fullText] after the loop over the pages. *)
Definition fullTextOf (pages : list (list jsstring)) : jsstring :=
  fold_left (fun fullText items => fullText ++ pageText items) pages [].

(** The arrays of [docState] have the same length. *)
Definition paired (d : DocState) : Prop :=
  length (chunks d) = length (embeddings d).

(** What a call of [processChunkSafe] adds to the two arrays. *)
Definition added {Runtime : Type} (acc acc' : Acc Runtime) (vs : list vector)
    (cs : list jsstring) : Prop :=
  vectors acc' = vectors acc ++ vs
  /\ safeChunks acc' = safeChunks acc ++ cs
  /\ length vs = length cs.

Section Handler.

Variable tokenize : jsstring -> list Z.

(** The runtime: its state, [wllama.setOptions({ embeddings: true })] and
    [wllama.embeddings(text)]. *)
Variable Runtime : Type.
Variable setEmbeddingMode : Runtime -> Runtime.
Variable embeddings : Runtime -> jsstring -> Runtime * option vector.

(** [(await runConcurrent(chunks, ensureChunkSize, 4)).flat()]: the
    results are collected in the order of the chunks. *)
Fixpoint ensureAll (fuel : nat) (chunks : list jsstring) : option (list jsstring) :=
  match chunks with
  | [] => Some []
  | c :: rest =>
      match ensureChunkSize tokenize fuel c, ensureAll fuel rest with
      | Some pieces, Some others => Some (pieces ++ others)
      | _, _ => None
      end
  end.

(** [runConcurrent(finalChunks, chunk => processChunkSafe(chunk), 1)]:
    one chunk after the other. *)
Fixpoint embedAll (fuel : nat) (acc : Acc Runtime) (chunks : list jsstring)
    : option (Acc Runtime) :=
  match chunks with
  | [] => Some acc
  | c :: rest =>
      match processChunkSafe embeddings fuel acc c with
      | Some acc' => embedAll fuel acc' rest
      | None => None
      end
  end.

(** What the handler reads and writes: the runtime, [docState] and the
    warning line. *)
Record Indexed := {
  indexRuntime : Runtime;
  indexDoc : DocState;
  indexWarn : jsstring
}.

(** The handler. [file] is [e.target.files[0]]: absent, or the name of
    the file with what the extraction gives, an error message or the items
    of every page. [wllama] tells whether a runtime is loaded and
    [selected] is [modelSelector.value]. [None]: a recursion is deeper than
    [fuel]. *)
Definition onPdfChange (fuel : nat)
    (file : option (jsstring * (jsstring + list (list jsstring))))
    (wllama : bool) (selected : jsstring) (st : Indexed) : option Indexed :=
  match file with
  | None => Some st
  | Some (fileName, extraction) =>
      if negb wllama then Some st
      else
        match extraction with
        | inl message =>
            Some {| indexRuntime := indexRuntime st; indexDoc := indexDoc st;
                    indexWarn := lit "PDF Error: " ++ message |}
        | inr pages =>
            match chunkTextDefault (fullTextOf pages) with
            | None => None
            | Some chunks =>
                match ensureAll fuel chunks with
                | None => None
                | Some validatedChunks =>
                    let finalChunks :=
                      filter (fun c => 0 <? len c) validatedChunks in
                    match embedAll fuel
                            {| runtime := setEmbeddingMode (indexRuntime st);
                               vectors := []; safeChunks := [] |}
                            finalChunks with
                    | None => None
                    | Some acc =>
                        Some {| indexRuntime := runtime acc;
                                indexDoc := {| name := fileName;
                                               chunks := safeChunks acc;
                                               ModelSwitch.embeddings := vectors acc;
                                               modelUrl := selected |};
                                indexWarn := indexWarn st |}
                    end
                end
            end
        end
  end.

End Handler.

Arguments indexRuntime {Runtime} _.
Arguments indexDoc {Runtime} _.
Arguments indexWarn {Runtime} _.
Arguments embedAll {Runtime} embeddings fuel acc chunks.
Arguments onPdfChange tokenize {Runtime} setEmbeddingMode embeddings fuel file
  wllama selected st.

(** Test data: a state with no document, and a two-page file. *)
Definition noDocument : Indexed unit :=
  {| indexRuntime := tt;
     indexDoc := {| name := []; chunks := []; embeddings := []; modelUrl := [] |};
     indexWarn := [] |}.

Definition twoPages : list (list jsstring) :=
  [[lit "Paris is the capital of France."; lit "Lyon is a major city."];
   [lit "Marseille is a port on the Mediterranean."]].

Definition keepMode (rt : unit) : unit := rt.

(** Test runtime, without state: it embeds every text. *)
Definition acceptAll (rt : unit) (text : jsstring) : unit * option vector :=
  (rt, Some [1%float]).

End Pipeline.

(* ===================================================================== *)
(** * The send button and the model catalogue *)
(* ===================================================================== *)

Module Handlers.

Import Similarity ModelSwitch Chat.

Section Send.

Variable World : Type.
Variable setOptions : World -> bool -> World.
Variable embed : World -> jsstring -> World * (jsstring + vector).
Variable completeStream :
  World -> list ChatMessage -> CompletionOptions -> World * StreamOutcome.
Variable completeText :
  World -> list ChatMessage -> CompletionOptions -> World * TextOutcome.
Variable aborted : World -> bool.
Variable Decoder : Type.
Variable decoder0 : Decoder.
Variable decode : Decoder -> list N -> Decoder * jsstring.

(** [btnSend.onclick]: the session and the content of the input box
    after the click. [wllama] tells whether a runtime is loaded. *)
Definition onSend (inputValue : jsstring) (wllama : bool) (doc : DocState)
    (s : Session World) : Session World * jsstring :=
  let text := trim inputValue in
  if negb (truthy text) || negb wllama then (s, inputValue)
  else
    (runChatTurn setOptions embed completeStream completeText aborted
       decoder0 decode doc s text, []).

End Send.

Arguments onSend {World} setOptions embed completeStream completeText aborted
  {Decoder} decoder0 decode inputValue wllama doc s.

(** Test runtime whose state is the flag of the abort signal: a streaming
    request yields the bytes of ["Par"] and then throws, a non-streaming
    request is rejected. *)
Definition keepOptions (w : bool) (b : bool) : bool := w.

Definition cutStream (w : bool) (msgs : list ChatMessage) (o : CompletionOptions)
    : bool * StreamOutcome :=
  (w, inr ([{| piece := Some [80%N; 97%N; 114%N]; currentText := None |}],
           Some (lit "network error"))).

Definition noText (w : bool) (msgs : list ChatMessage) (o : CompletionOptions)
    : bool * TextOutcome := (w, inl (lit "unavailable")).

Definition signalled (w : bool) : bool := w.

(** A session whose turn has been cancelled, the user message pushed. *)
Definition stoppedSession : Session bool :=
  {| world := true;
     messages := [{| role := user; content := lit "What is the capital of France?" |}];
     warning := []; assistantDiv := [] |}.

End Handlers.

Module Catalog.

(** [s.endsWith(suffix)] *)
Definition endsWith (s suffix : jsstring) : bool :=
  starts_with (rev suffix) (rev s).

(** The listing of the two servers: [/api/models] answers with the
    [.gguf] entries of the models directory, each as [/models/<entry>], and
    with the empty array when the directory does not exist ([None]). *)
Definition listModels (dir : option (list jsstring)) : list jsstring :=
  match dir with
  | None => []
  | Some entries =>
      map (fun f => lit "/models/" ++ f)
        (filter (fun f => endsWith f (lit ".gguf")) entries)
  end.

(** [s.split(sep)] for a separator of one code unit. *)
Fixpoint split (sep : codeUnit) (s : jsstring) : list jsstring :=
  match s with
  | [] => [[]]
  | c :: s' =>
      if (c =? sep)%N then [] :: split sep s'
      else match split sep s' with
           | seg :: rest => (c :: seg) :: rest
           | [] => [[c]]
           end
  end.

(** [parts.pop()], the last part ([split] never gives an empty array). *)
Definition pop (parts : list jsstring) : jsstring := last parts [].

(** [s.replace(pat, rep)] with a string pattern: the first occurrence
    only. *)
Fixpoint replace (pat rep s : jsstring) : jsstring :=
  if starts_with pat s then rep ++ skipn (length pat) s
  else match s with
       | [] => []
       | c :: s' => c :: replace pat rep s'
       end.

(** The label [refreshModelList] gives a model:
    [m.split("/").pop().replace(".gguf", "")]. *)
Definition optionName (m : jsstring) : jsstring :=
  replace (lit ".gguf") [] (pop (split 47%N m)).

(** The markup of one option:
    [<option value="${m}">${name}</option>]. *)
Definition optionMarkup (m : jsstring) : jsstring :=
  lit "<option value=" ++ [34%N] ++ m ++ [34%N] ++ lit ">"
  ++ optionName m ++ lit "</option>".

(** [refreshModelList]: the value of [modelSelector.innerHTML] after the
    call. [response] is the list the server returns, [None] when the
    request fails or is not answered with success. *)
Definition refreshModelList (response : option (list jsstring))
    (innerHTML : jsstring) : jsstring :=
  match response with
  | Some (m :: rest) => join [] (map optionMarkup (m :: rest))
  | _ => innerHTML
  end.

(** The file name [f] without its last five code units. *)
Definition stemOf (f : jsstring) : jsstring := firstn (length f - 5) f.

(** Test data: a models directory with two model files and a note. *)
Definition modelsDir : list jsstring :=
  [lit "tinyllama-q4.gguf"; lit "README.md"; lit "qwen2-0.5b-q4.gguf"].

(** [pat] occurs in [s] at the end and nowhere before. *)
Definition onlyFinal (pat s : jsstring) : Prop :=
  exists stem,
    s = stem ++ pat
    /\ forall k, (k < length stem)%nat -> starts_with pat (skipn k s) = false.

End Catalog.

(* ===================================================================== *)
(** * Facts about the string primitives *)
(* ===================================================================== *)

Module JsStringFacts.

(** ** Lengths *)

Lemma len_nonneg s : (0 <= len s)%Z.
Proof. unfold len. lia. Qed.

Lemma trimStart_length s : (length (trimStart s) <= length s)%nat.
Proof.
  induction s as [|c s IH]; simpl; [lia|].
  destruct (is_ws c); simpl; lia.
Qed.

Lemma trimEnd_length s : (length (trimEnd s) <= length s)%nat.
Proof.
  unfold trimEnd. rewrite length_rev.
  pose proof (trimStart_length (rev s)) as H. rewrite length_rev in H. exact H.
Qed.

Lemma trim_length s : (length (trim s) <= length s)%nat.
Proof.
  unfold trim.
  pose proof (trimEnd_length (trimStart s)). pose proof (trimStart_length s). lia.
Qed.

Lemma substring_length s a b :
  Z.of_nat (length (substring s a b))
  = (Z.max (clamp (len s) a) (clamp (len s) b)
     - Z.min (clamp (len s) a) (clamp (len s) b))%Z.
Proof.
  unfold substring. rewrite length_firstn, length_skipn.
  unfold clamp, len. lia.
Qed.

Lemma substring_whole s b : (len s <= b)%Z -> substring s 0 b = s.
Proof.
  intros Hb. unfold substring, clamp.
  pose proof (len_nonneg s).
  replace (Z.min (Z.max 0 (Z.min 0 (len s))) (Z.max 0 (Z.min b (len s)))) with 0%Z by lia.
  replace (Z.max (Z.max 0 (Z.min 0 (len s))) (Z.max 0 (Z.min b (len s)))) with (len s) by lia.
  simpl. unfold len. rewrite Z.sub_0_r, Nat2Z.id. apply firstn_all.
Qed.

(** ** [lastIndexOf] *)

Lemma lastIndexOf_from_range pat s k :
  pat <> [] ->
  let r := lastIndexOf_from pat s k in
  (r = -1 \/ k <= r /\ r + Z.of_nat (length pat) <= k + Z.of_nat (length s))%Z.
Proof.
  intros Hpat. revert k. induction s as [|c s IH]; intros k; simpl.
  - destruct pat; [congruence|]. simpl. now left.
  - specialize (IH (k + 1)%Z). simpl in IH.
    destruct (Z.eqb_spec (lastIndexOf_from pat s (k + 1)) (-1)) as [E|E].
    + destruct (starts_with pat (c :: s)) eqn:Hs; [|now left].
      right. split; [lia|].
      assert (length pat <= length (c :: s))%nat as Hl.
      { clear -Hs. revert Hs. generalize (c :: s) as t.
        induction pat as [|p pat IHp]; intros t Hs; simpl; [lia|].
        destruct t as [|d t]; simpl in *; [discriminate|].
        apply andb_prop in Hs. destruct Hs as [_ Hs].
        apply IHp in Hs. lia. }
      simpl in Hl. lia.
    + right. destruct IH as [IH|IH]; [contradiction|]. simpl length. lia.
Qed.

Lemma lastIndexOf_range s pat :
  pat <> [] ->
  (lastIndexOf s pat = -1
   \/ 0 <= lastIndexOf s pat
      /\ lastIndexOf s pat + Z.of_nat (length pat) <= len s)%Z.
Proof.
  intros Hpat. unfold lastIndexOf, len.
  pose proof (lastIndexOf_from_range pat s 0 Hpat) as H. simpl in H. lia.
Qed.

Lemma clamp_range n x : 0 <= n -> 0 <= clamp n x <= n.
Proof. unfold clamp. lia. Qed.

Lemma substring_len s a b :
  0 <= a -> a <= b ->
  len (substring s a b) = Z.min b (len s) - Z.min a (len s).
Proof.
  intros Ha Hab. unfold len at 1. rewrite substring_length.
  pose proof (len_nonneg s). unfold clamp. lia.
Qed.

Lemma substring_past_end s a b c :
  len s <= b -> len s <= c -> substring s a b = substring s a c.
Proof.
  intros Hb Hc. unfold substring, clamp.
  replace (Z.min b (len s)) with (len s) by lia.
  replace (Z.min c (len s)) with (len s) by lia.
  reflexivity.
Qed.

Lemma substring_empty s a b : len s <= a -> len s <= b -> substring s a b = [].
Proof.
  intros Ha Hb. unfold substring, clamp. pose proof (len_nonneg s).
  replace (Z.max (Z.max 0 (Z.min a (len s))) (Z.max 0 (Z.min b (len s)))
           - Z.min (Z.max 0 (Z.min a (len s))) (Z.max 0 (Z.min b (len s))))
    with 0 by lia.
  reflexivity.
Qed.

Lemma len_app (s t : jsstring) : len (s ++ t) = len s + len t.
Proof. unfold len. rewrite length_app. lia. Qed.

Lemma len_zero_nil (s : jsstring) : len s = 0 -> s = [].
Proof. unfold len. destruct s; simpl; [reflexivity | lia]. Qed.

Lemma truthy_false_nil (s : jsstring) : truthy s = false -> s = [].
Proof. destruct s; [reflexivity | discriminate]. Qed.

Lemma trim_len s : len (trim s) <= len s.
Proof. unfold len. pose proof (trim_length s). lia. Qed.

End JsStringFacts.

(* ===================================================================== *)
(** * ChunkSplitter: cursor, windows and coverage *)
(* ===================================================================== *)

Module ChunkerProofs.

Import Chunker JsStringFacts.

(** The guard of the "safety exit" compares [end] with [i + overlap]
    after [i] was set to [end - overlap]: its first conjunct always holds. *)
Lemma safety_guard_always overlap end_ :
  let i := end_ - overlap in
  let i := if i <? 0 then 0 else i in
  (end_ <=? i + overlap) = true.
Proof. simpl. destruct (Z.ltb_spec (end_ - overlap) 0); apply Z.leb_le; lia. Qed.

(** Before the end of the text the cursor is therefore set to the cut
    point itself, whatever [overlap] is. *)
Lemma nextCursor_before_end text overlap end_ :
  end_ < len text -> nextCursor text overlap end_ = end_.
Proof.
  intros H. unfold nextCursor. rewrite safety_guard_always.
  apply Z.ltb_lt in H. now rewrite H.
Qed.

Lemma nextCursor_at_end text overlap end_ :
  len text <= end_ -> nextCursor text overlap end_ = Z.max 0 (end_ - overlap).
Proof.
  intros H. unfold nextCursor. apply Z.ltb_ge in H. rewrite H, andb_false_r.
  destruct (Z.ltb_spec (end_ - overlap) 0); lia.
Qed.

Lemma breakIdx_range w :
  breakIdx w = -1 \/ 0 <= breakIdx w < len w.
Proof.
  unfold breakIdx.
  destruct (lastIndexOf_range w (lit ". ")) as [E|E]; [discriminate| |].
  - rewrite E. simpl.
    destruct (lastIndexOf_range w [10%N]) as [F|F]; [discriminate| |].
    + rewrite F. simpl.
      destruct (lastIndexOf_range w [32%N]) as [G|G]; [discriminate| |].
      * now left.
      * right. simpl in G. lia.
    + destruct (Z.eqb_spec (lastIndexOf w [10%N]) (-1)); simpl.
      * destruct (lastIndexOf_range w [32%N]) as [G|G]; [discriminate| |].
        -- now left.
        -- right. simpl in G. lia.
      * right. simpl in F. lia.
  - destruct (Z.eqb_spec (lastIndexOf w (lit ". ")) (-1)); simpl.
    + lia.
    + right. simpl in E. lia.
Qed.

(** With the default size, a cut made before the end of the text lies
    past the cursor and inside the text. *)
Lemma cutPoint_inside text i :
  0 <= i -> i + 600 < len text ->
  i + 501 <= cutPoint text 600 i <= len text.
Proof.
  intros Hi Hlt. unfold cutPoint.
  apply Z.ltb_lt in Hlt. rewrite Hlt. apply Z.ltb_lt in Hlt.
  set (w := substring text (i + 600 - 100) (i + 600 + 20)).
  assert (len w = Z.min (i + 620) (len text) - (i + 500)) as Hw.
  { unfold w. rewrite substring_len by lia. lia. }
  destruct (breakIdx_range w) as [E|E].
  - rewrite E. simpl. lia.
  - destruct (Z.eqb_spec (breakIdx w) (-1)); simpl; lia.
Qed.

Lemma cutPoint_nominal text size i :
  len text <= i + size -> cutPoint text size i = i + size.
Proof. intros H. unfold cutPoint. apply Z.ltb_ge in H. now rewrite H. Qed.

(** Every iteration moves the cursor forward, and never past the cut. *)
Lemma cursor_progress text i :
  0 <= i ->
  let e := cutPoint text 600 i in
  i < e /\ i < nextCursor text 100 e <= e.
Proof.
  intros Hi e. subst e.
  destruct (Z.lt_ge_cases (i + 600) (len text)) as [H|H].
  - pose proof (cutPoint_inside text i Hi H) as Hc.
    destruct (Z.lt_ge_cases (cutPoint text 600 i) (len text)) as [L|L].
    + rewrite nextCursor_before_end by lia. lia.
    + rewrite nextCursor_at_end by lia. lia.
  - rewrite (cutPoint_nominal text 600 i) by lia.
    rewrite nextCursor_at_end by lia. lia.
Qed.

(** The fragments pushed are the fragments of the recorded windows. *)
Lemma chunkLoop_windowLoop fuel text size overlap :
  forall i windows,
    chunkLoop fuel text size overlap i (map (fragmentOf text) windows)
    = option_map (map (fragmentOf text))
        (windowLoop fuel text size overlap i windows).
Proof.
  induction fuel as [|fuel IH]; intros i windows; simpl.
  - destruct (i <? len text); reflexivity.
  - destruct (i <? len text); [|reflexivity].
    rewrite <- IH. rewrite map_app. reflexivity.
Qed.

Lemma Exists_app_l {A} (P : A -> Prop) l l' : Exists P l -> Exists P (l ++ l').
Proof. intros H. apply Exists_app. now left. Qed.

(** The loop ends within [len text - i] iterations, and the windows it
    has recorded then contain every position of the text. *)
Lemma windowLoop_covers text :
  forall fuel i windows,
    0 <= i -> len text - i <= Z.of_nat fuel ->
    (forall p, 0 <= p < i -> Exists (inWindow p) windows) ->
    exists ws,
      windowLoop fuel text 600 100 i windows = Some ws
      /\ forall p, 0 <= p < len text -> Exists (inWindow p) ws.
Proof.
  induction fuel as [|fuel IH]; intros i windows Hi Hfuel Hcov.
  - simpl. destruct (Z.ltb_spec i (len text)); [lia|].
    exists windows. split; [reflexivity|]. intros p Hp. apply Hcov. lia.
  - simpl. destruct (Z.ltb_spec i (len text)) as [Hlt|Hge].
    + destruct (cursor_progress text i Hi) as [He Hn].
      apply IH; [lia|lia|].
      intros p Hp. destruct (Z.lt_ge_cases p i).
      * apply Exists_app_l, Hcov. lia.
      * apply Exists_app. right. constructor. unfold inWindow. simpl. lia.
    + exists windows. split; [reflexivity|]. intros p Hp. apply Hcov. lia.
Qed.

Lemma chunkLoop_step fuel text size overlap i chunks :
  i < len text ->
  chunkLoop (S fuel) text size overlap i chunks
  = chunkLoop fuel text size overlap
      (nextCursor text overlap (cutPoint text size i))
      (chunks ++ [trim (substring text i (cutPoint text size i))]).
Proof. intros H. simpl. apply Z.ltb_lt in H. now rewrite H. Qed.

Lemma chunkLoop_exit fuel text size overlap i chunks :
  len text <= i -> chunkLoop fuel text size overlap i chunks = Some chunks.
Proof.
  intros H. apply Z.ltb_ge in H.
  destruct fuel; simpl; now rewrite H.
Qed.

(** A result does not depend on the number of iterations allowed. *)
Lemma chunkLoop_more_fuel text size overlap :
  forall fuel extra i chunks result,
    chunkLoop fuel text size overlap i chunks = Some result ->
    chunkLoop (fuel + extra) text size overlap i chunks = Some result.
Proof.
  induction fuel as [|fuel IH]; intros extra i chunks result H.
  - simpl in H. destruct (Z.ltb_spec i (len text)); [discriminate|].
    rewrite chunkLoop_exit by lia. exact H.
  - simpl in *. destruct (i <? len text); [now apply IH | exact H].
Qed.

(** The raw fragments of a text that fits in one window: the trimmed
    text, and the trimmed tail from position 500 when the text is longer
    than 500 units. *)
Lemma chunkLoop_one_window text :
  0 < len text <= 600 ->
  chunkLoop (length text) text 600 100 0 []
  = Some (trim text
          :: if 500 <? len text then [trim (substring_from text 500)] else []).
Proof.
  intros Hlen.
  assert (exists f, length text = S f) as [f Hf].
  { destruct text; [unfold len in Hlen; simpl in Hlen; lia | simpl; eauto]. }
  rewrite Hf, chunkLoop_step by lia.
  rewrite (cutPoint_nominal text 600 0) by lia.
  rewrite nextCursor_at_end by lia.
  rewrite (substring_whole text (0 + 600)) by lia.
  replace (Z.max 0 (0 + 600 - 100)) with 500 by lia.
  destruct (Z.ltb_spec 500 (len text)) as [Hgt|Hle].
  - assert (exists f', f = S f') as [f' Hf'].
    { destruct f; [unfold len in Hgt; rewrite Hf in Hgt; simpl in Hgt; lia | eauto]. }
    rewrite Hf', chunkLoop_step by lia.
    rewrite (cutPoint_nominal text 600 500) by lia.
    rewrite nextCursor_at_end by lia.
    rewrite chunkLoop_exit by lia.
    unfold substring_from.
    rewrite (substring_past_end text 500 (500 + 600) (len text)) by lia.
    reflexivity.
  - rewrite chunkLoop_exit by lia. reflexivity.
Qed.

(** ** Claims on [chunkText] *)

(** C1 (the code does not meet it). On the 700 distinct units of
    [ramp 700] the loop pushes the windows [0, 600) and [600, 1200): the
    second fragment starts at the cut point 600 and its first unit is the
    one at position 600, not the one at position 500 that an overlap of 100
    would give. No unit of the text is in both fragments. *)
Theorem chunkText_overlap_lost :
  windowLoop 700 (ramp 700) 600 100 0 [] = Some [(0, 600); (600, 1200)]
  /\ chunkTextDefault (ramp 700) = Some [firstn 600 (ramp 700); skipn 600 (ramp 700)]
  /\ hd_error (skipn 600 (ramp 700)) = nth_error (ramp 700) 600
  /\ hd_error (skipn 600 (ramp 700)) <> nth_error (ramp 700) 500
  /\ forall c, In c (firstn 600 (ramp 700)) -> ~ In c (skipn 600 (ramp 700)).
Proof.
  split; [vm_compute; reflexivity|].
  split; [vm_compute; reflexivity|].
  split; [vm_compute; reflexivity|].
  split; [vm_compute; discriminate|].
  intros c H1 H2.
  unfold ramp in H1, H2. rewrite firstn_map in H1. rewrite skipn_map in H2.
  apply in_map_iff in H1. destruct H1 as [k1 [E1 K1]].
  apply in_map_iff in H2. destruct H2 as [k2 [E2 K2]].
  replace (firstn 600 (seq 0 700)) with (seq 0 600) in K1 by (vm_compute; reflexivity).
  rewrite skipn_seq in K2.
  apply in_seq in K1. apply in_seq in K2.
  lia.
Qed.

(** C2, counterexample. The text [ramp 605] gives the windows [0, 600)
    and [600, 1200); the fragment of the second has 5 units and is dropped
    by the final filter, so position 602 lies in no window of a returned
    fragment. *)
Lemma chunkText_gap_counterexample :
  windowLoop 605 (ramp 605) 600 100 0 [] = Some [(0, 600); (600, 1200)]
  /\ chunkTextDefault (ramp 605) = Some [firstn 600 (ramp 605)]
  /\ keptWindows (ramp 605) [(0, 600); (600, 1200)] = [(0, 600)]
  /\ 0 <= 602 < len (ramp 605)
  /\ ~ Exists (inWindow 602) (keptWindows (ramp 605) [(0, 600); (600, 1200)]).
Proof.
  split; [vm_compute; reflexivity|].
  split; [vm_compute; reflexivity|].
  assert (keptWindows (ramp 605) [(0, 600); (600, 1200)] = [(0, 600)]) as K
    by (vm_compute; reflexivity).
  split; [exact K|].
  split; [vm_compute; split; congruence|].
  rewrite K. intros H. inversion H as [? ? H0|? ? H0]; subst.
  - unfold inWindow in H0. simpl in H0. lia.
  - inversion H0.
Qed.

(** C2, as amended. For every text the loop of [chunkText] ends; the
    fragments it pushes are the trimmed contents of its windows, the
    function returns those longer than 10 units, and the windows of the
    pushed fragments contain every position of the text. *)
Theorem chunkText_windows_cover (text : jsstring) :
  exists ws,
    windowLoop (length text) text 600 100 0 [] = Some ws
    /\ chunkTextDefault text
       = Some (filter (fun c => 10 <? len c) (map (fragmentOf text) ws))
    /\ forall p, 0 <= p < len text -> Exists (inWindow p) ws.
Proof.
  destruct (windowLoop_covers text (length text) 0 []) as [ws [Hws Hcov]].
  - lia.
  - unfold len. lia.
  - intros p Hp. lia.
  - exists ws. split; [exact Hws|]. split; [|exact Hcov].
    unfold chunkTextDefault, chunkText.
    change (@nil jsstring) with (map (fragmentOf text) []).
    rewrite chunkLoop_windowLoop, Hws. reflexivity.
Qed.

(** C3, counterexample. A text of two units gives no fragment, and the
    550 units of [ramp 550] give two: the text, and again its last 50
    units. *)
Lemma chunkText_short_counterexample :
  (len (lit "hi") <= 600 /\ chunkTextDefault (lit "hi") = Some [])
  /\ (len (ramp 550) <= 600
      /\ chunkTextDefault (ramp 550) = Some [ramp 550; skipn 500 (ramp 550)]).
Proof.
  split; split; try (vm_compute; congruence); vm_compute; reflexivity.
Qed.

(** C3, as amended. A text of at most 600 units whose part from position
    500 on trims to at most 10 units (every text of at most 500 units is
    one) gives exactly one fragment, the trimmed text, when that is longer
    than 10 units, and no fragment otherwise. *)
Theorem chunkText_short (text : jsstring) :
  len text <= 600 ->
  len (trim (substring_from text 500)) <= 10 ->
  chunkTextDefault text = Some (if 10 <? len (trim text) then [trim text] else []).
Proof.
  intros Hlen Htail. unfold chunkTextDefault, chunkText.
  destruct (Z.eq_dec (len text) 0) as [E|E].
  - apply len_zero_nil in E. subst text. reflexivity.
  - pose proof (len_nonneg text).
    rewrite chunkLoop_one_window by lia. simpl.
    destruct (500 <? len text); simpl.
    + apply Z.ltb_ge in Htail. rewrite Htail. reflexivity.
    + reflexivity.
Qed.

Lemma chunkText_short_witness :
  len (lit "Paris is the capital of France.") <= 600
  /\ chunkTextDefault (lit "Paris is the capital of France.")
     = Some [lit "Paris is the capital of France."].
Proof.
  split; [vm_compute; congruence|].
  apply (chunkText_short (lit "Paris is the capital of France."));
    vm_compute; congruence.
Defined.

End ChunkerProofs.

(* ===================================================================== *)
(** * IndexingPipeline: the two bisection procedures *)
(* ===================================================================== *)

Module IndexingProofs.

Import Indexing JsStringFacts.

(** ** [ensureChunkSize] *)

(** An occurrence reported at the first scanned index is a prefix. *)
Lemma lastIndexOf_from_first pat s k :
  pat <> [] -> 0 <= k -> lastIndexOf_from pat s k = k -> starts_with pat s = true.
Proof.
  intros Hpat Hk. destruct s as [|c s]; simpl.
  - destruct pat; [congruence|]. simpl. lia.
  - pose proof (lastIndexOf_from_range pat s (k + 1) Hpat) as R. simpl in R.
    destruct (Z.eqb_spec (lastIndexOf_from pat s (k + 1)) (-1)) as [E|E].
    + destruct (starts_with pat (c :: s)); [reflexivity | lia].
    + lia.
Qed.

Lemma trim_leading_ws c s : is_ws c = true -> len (trim (c :: s)) < len (c :: s).
Proof.
  intros H. unfold trim. simpl. rewrite H.
  change (trimEnd (trimStart s)) with (trim s).
  pose proof (trim_len s). unfold len in *. simpl length. lia.
Qed.

Section TokenSize.

Variable tokenize : jsstring -> list Z.

(** A text of at least 100 units is cut strictly inside. *)
Lemma splitIdx_range text :
  100 <= len text ->
  0 <= splitIdx text < len text
  /\ (splitIdx text = 0 -> exists s, text = 32%N :: s).
Proof.
  intros H. unfold splitIdx.
  set (mid := len text / 2).
  assert (50 <= mid /\ mid + 50 <= len text) as [Hm1 Hm2].
  { unfold mid. split.
    - apply Z.div_le_lower_bound; lia.
    - assert (len text / 2 * 2 <= len text).
      { rewrite Z.mul_comm. apply Z.mul_div_le. lia. }
      assert (len text / 2 <= len text - 50); [|lia].
      apply Z.div_le_upper_bound; lia. }
  set (w := substring text (mid - 50) (mid + 50)).
  assert (len w = 100) as Hw.
  { unfold w. rewrite substring_len by lia. lia. }
  destruct (lastIndexOf_range w [32%N]) as [E|E]; [discriminate| |].
  - rewrite E. simpl. split; [lia|]. intros; lia.
  - simpl in E.
    destruct (Z.eqb_spec (lastIndexOf w [32%N]) (-1)) as [F|F]; simpl; [lia|].
    split; [lia|]. intros Hz.
    assert (mid = 50) by lia.
    assert (lastIndexOf w [32%N] = 0) as Hr by lia.
    apply lastIndexOf_from_first in Hr; [|discriminate|lia].
    unfold w in Hr. replace (mid - 50) with 0 in Hr by lia.
    unfold substring, clamp in Hr.
    replace (Z.min (Z.max 0 (Z.min 0 (len text))) (Z.max 0 (Z.min (mid + 50) (len text))))
      with 0 in Hr by lia.
    simpl in Hr.
    destruct text as [|c s]; [unfold len in H; simpl in H; lia|].
    destruct (Z.to_nat _) in Hr; simpl in Hr; [discriminate|].
    rewrite andb_true_r in Hr. destruct c as [|q]; [discriminate|].
    apply Pos.eqb_eq in Hr. subst q. eauto.
Qed.

(** Both pieces of such a text are strictly shorter than the text. *)
Lemma bisection_shrinks text :
  100 <= len text ->
  len (leftOf text) < len text /\ len (rightOf text) < len text.
Proof.
  intros H. destruct (splitIdx_range text H) as [[H0 H1] Hz].
  unfold leftOf, rightOf, substring_from. split.
  - pose proof (trim_len (substring text 0 (splitIdx text))).
    rewrite substring_len in *; lia.
  - destruct (Z.eq_dec (splitIdx text) 0) as [E|E].
    + destruct (Hz E) as [s Hs]. rewrite E.
      rewrite substring_whole by lia. rewrite Hs.
      apply trim_leading_ws. reflexivity.
    + pose proof (trim_len (substring text (splitIdx text) (len text))).
      rewrite substring_len in *; lia.
Qed.

(** When only texts of at least 100 units are over the threshold, a
    recursion depth above the length of the text is never exhausted. *)
Lemma ensureChunkSize_enough_fuel :
  (forall t, 300 < tokens tokenize t -> 100 <= len t) ->
  forall fuel text,
    (length text < fuel)%nat ->
    exists pieces,
      ensureChunkSize tokenize fuel text = Some pieces
      /\ Forall (withinThreshold tokenize) pieces.
Proof.
  intros Hreal. induction fuel as [|fuel IH]; intros text Hf; [lia|].
  simpl. fold (tokens tokenize text).
  destruct (Z.leb_spec (tokens tokenize text) 300) as [Hle|Hgt].
  - exists [text]. split; [reflexivity|]. constructor; [exact Hle|constructor].
  - destruct (bisection_shrinks text (Hreal text Hgt)) as [Hl Hr].
    assert (exists ls, (if truthy (leftOf text)
                        then ensureChunkSize tokenize fuel (leftOf text)
                        else Some []) = Some ls /\ Forall (withinThreshold tokenize) ls)
      as [ls [El Fl]].
    { destruct (truthy (leftOf text)).
      - apply IH. unfold len in Hl. lia.
      - exists []. split; [reflexivity|constructor]. }
    assert (exists rs, (if truthy (rightOf text)
                        then ensureChunkSize tokenize fuel (rightOf text)
                        else Some []) = Some rs /\ Forall (withinThreshold tokenize) rs)
      as [rs [Er Fr]].
    { destruct (truthy (rightOf text)).
      - apply IH. unfold len in Hr. lia.
      - exists []. split; [reflexivity|constructor]. }
    rewrite El, Er. exists (ls ++ rs). split; [reflexivity|].
    apply Forall_app. split; assumption.
Qed.

(** A result does not depend on the recursion depth allowed. *)
Lemma ensureChunkSize_more_fuel :
  forall fuel text pieces,
    ensureChunkSize tokenize fuel text = Some pieces ->
    ensureChunkSize tokenize (S fuel) text = Some pieces.
Proof.
  induction fuel as [|fuel IH]; intros text pieces H; [discriminate|].
  cbn [ensureChunkSize] in H. cbn [ensureChunkSize].
  destruct (tokens tokenize text <=? 300); [exact H|].
  destruct (truthy (leftOf text)), (truthy (rightOf text)).
  - destruct (ensureChunkSize tokenize fuel (leftOf text)) as [ls|] eqn:El;
      [|discriminate].
    destruct (ensureChunkSize tokenize fuel (rightOf text)) as [rs|] eqn:Er;
      [|discriminate].
    cbn [ensureChunkSize] in IH.
    rewrite (IH _ _ El), (IH _ _ Er). exact H.
  - destruct (ensureChunkSize tokenize fuel (leftOf text)) as [ls|] eqn:El;
      [|discriminate].
    cbn [ensureChunkSize] in IH. rewrite (IH _ _ El). exact H.
  - destruct (ensureChunkSize tokenize fuel (rightOf text)) as [rs|] eqn:Er;
      [|discriminate].
    cbn [ensureChunkSize] in IH. rewrite (IH _ _ Er). exact H.
  - exact H.
Qed.

(** Whatever the tokenizer, a piece is returned only when it is within
    the threshold. *)
Lemma ensureChunkSize_within :
  forall fuel text pieces,
    ensureChunkSize tokenize fuel text = Some pieces ->
    Forall (withinThreshold tokenize) pieces.
Proof.
  induction fuel as [|fuel IH]; intros text pieces H; [discriminate|].
  simpl in H.
  destruct (Z.leb_spec (tokens tokenize text) 300) as [Hle|Hgt].
  - injection H as <-. constructor; [exact Hle|constructor].
  - destruct (if truthy (leftOf text)
              then ensureChunkSize tokenize fuel (leftOf text) else Some [])
      as [ls|] eqn:El; [|discriminate].
    destruct (if truthy (rightOf text)
              then ensureChunkSize tokenize fuel (rightOf text) else Some [])
      as [rs|] eqn:Er; [|discriminate].
    injection H as <-. apply Forall_app. split.
    + destruct (truthy (leftOf text)); [exact (IH _ _ El)|].
      injection El as <-. constructor.
    + destruct (truthy (rightOf text)); [exact (IH _ _ Er)|].
      injection Er as <-. constructor.
Qed.

End TokenSize.

(** C4, counterexample. With a tokenizer that reports 301 tokens for
    every text, the text ["a"] is over the threshold, its right piece is
    ["a"] again, and no recursion depth gives a result: the single
    character is not accepted as a leaf. *)
Lemma ensureChunkSize_single_char_counterexample :
  leftOf (lit "a") = []
  /\ rightOf (lit "a") = lit "a"
  /\ ~ exists fuel pieces, ensureChunkSize verbose fuel (lit "a") = Some pieces.
Proof.
  assert (leftOf (lit "a") = []) as L by (vm_compute; reflexivity).
  assert (rightOf (lit "a") = lit "a") as R by (vm_compute; reflexivity).
  split; [exact L|]. split; [exact R|].
  intros [fuel [pieces H]]. revert pieces H.
  induction fuel as [|fuel IH]; intros pieces H; [discriminate|].
  cbn [ensureChunkSize] in H.
  replace (tokens verbose (lit "a") <=? 300) with false in H
    by (vm_compute; reflexivity).
  rewrite L, R in H. cbn [truthy lit] in H. fold (lit "a") in H.
  destruct (ensureChunkSize verbose fuel (lit "a")) as [rs|] eqn:E.
  - exact (IH rs eq_refl).
  - discriminate.
Qed.

(** C4, as amended. If the tokenizer reports more than 300 tokens only
    for texts of at least 100 units, [ensureChunkSize] returns for every
    text within a recursion depth of its length plus one, and every text
    over the threshold is cut into two pieces strictly shorter than itself.
    For every tokenizer, with or without that property, no piece over the
    threshold is ever returned, at any depth. *)
Theorem ensureChunkSize_terminates (tokenize : jsstring -> list Z) (text : jsstring) :
  ((forall t, 300 < tokens tokenize t -> 100 <= len t) ->
   (exists pieces,
       ensureChunkSize tokenize (S (length text)) text = Some pieces)
   /\ (forall t, 300 < tokens tokenize t ->
         len (leftOf t) < len t /\ len (rightOf t) < len t))
  /\ (forall fuel t pieces,
        ensureChunkSize tokenize fuel t = Some pieces ->
        Forall (withinThreshold tokenize) pieces).
Proof.
  split.
  - intros Hreal. split.
    + destruct (ensureChunkSize_enough_fuel tokenize Hreal (S (length text)) text)
        as [pieces [H _]]; [lia|eauto].
    + intros t Ht. apply bisection_shrinks, Hreal, Ht.
  - apply ensureChunkSize_within.
Qed.

Lemma perUnit_long t : 300 < tokens perUnit t -> 100 <= len t.
Proof. unfold tokens, perUnit, len, codeUnit. rewrite length_map. lia. Qed.

(** The tokenizer with one token for each unit, on the 700 units of
    [ramp 700]: a result is returned, and its pieces are within the
    threshold. *)
Lemma ensureChunkSize_terminates_witness :
  exists pieces,
    ensureChunkSize perUnit (S (length (Chunker.ramp 700))) (Chunker.ramp 700)
    = Some pieces
    /\ Forall (withinThreshold perUnit) pieces.
Proof.
  destruct (ensureChunkSize_terminates perUnit (Chunker.ramp 700))
    as [Hreturns Hwithin].
  destruct (Hreturns perUnit_long) as [[pieces Hp] _].
  exists pieces. split; [exact Hp|].
  exact (Hwithin _ _ _ Hp).
Defined.

(** ** [processChunkSafe] *)

Lemma half_lengths text :
  10 <= len text ->
  len (leftHalf text) < len text /\ len (rightHalf text) < len text.
Proof.
  intros H. unfold leftHalf, rightHalf, substring_from.
  assert (5 <= len text / 2) by (apply Z.div_le_lower_bound; lia).
  assert (len text / 2 < len text) by (apply Z.div_lt_upper_bound; lia).
  pose proof (trim_len (substring text 0 (len text / 2))).
  pose proof (trim_len (substring text (len text / 2) (len text))).
  rewrite substring_len in *; lia.
Qed.

Section Embedding.

Variable Runtime : Type.
Variable embeddings : Runtime -> jsstring -> Runtime * option Similarity.vector.

(** The procedure on the recording runtime, and the texts recorded. *)
Let run := processChunkSafe (recording embeddings).
Let calls (acc : Acc (Runtime * list jsstring)) : list jsstring := snd (runtime acc).

(** The recursion is never deeper than the length of the text plus one. *)
Lemma processChunkSafe_enough_fuel :
  forall fuel acc text,
    (length text < fuel)%nat -> exists acc', run fuel acc text = Some acc'.
Proof.
  unfold run.
  induction fuel as [|fuel IH]; intros acc text Hf; [lia|].
  cbn [processChunkSafe].
  destruct (recording embeddings (runtime acc) text) as [rt [output|]]; [eauto|].
  destruct (Z.ltb_spec (len text) 10) as [Hs|Hl]; [eauto|].
  destruct (half_lengths text Hl) as [H1 H2]. unfold len in H1, H2.
  set (acc0 := {| runtime := rt; vectors := vectors acc; safeChunks := safeChunks acc |}).
  assert (exists a,
             (if truthy (leftHalf text)
              then processChunkSafe (recording embeddings) fuel acc0 (leftHalf text)
              else Some acc0) = Some a) as [a Ha].
  { destruct (truthy (leftHalf text)); [apply IH; lia | eauto]. }
  rewrite Ha. destruct (truthy (rightHalf text)); [apply IH; lia | eauto].
Qed.

(** A result does not depend on the recursion depth allowed. *)
Lemma processChunkSafe_more_fuel :
  forall fuel (acc : Acc Runtime) text acc',
    processChunkSafe embeddings fuel acc text = Some acc' ->
    processChunkSafe embeddings (S fuel) acc text = Some acc'.
Proof.
  induction fuel as [|fuel IH]; intros acc text acc' H; [discriminate|].
  cbn [processChunkSafe] in H. cbn [processChunkSafe].
  destruct (embeddings (runtime acc) text) as [rt [output|]]; [exact H|].
  destruct (len text <? 10); [exact H|].
  set (acc0 := {| runtime := rt; vectors := vectors acc;
                  safeChunks := safeChunks acc |}) in *.
  cbn [processChunkSafe] in IH.
  destruct (truthy (leftHalf text)).
  - destruct (processChunkSafe embeddings fuel acc0 (leftHalf text)) as [a|] eqn:El;
      [|discriminate].
    rewrite (IH _ _ _ El).
    destruct (truthy (rightHalf text)); [now apply IH | exact H].
  - destruct (truthy (rightHalf text)); [now apply IH | exact H].
Qed.

(** A call of [processChunkSafe] first submits its own text, and only
    adds to the record of submitted texts. *)
Lemma processChunkSafe_calls :
  forall fuel acc text acc',
    run fuel acc text = Some acc' ->
    exists rest, calls acc' = calls acc ++ text :: rest.
Proof.
  unfold run, calls.
  induction fuel as [|fuel IH]; intros acc text acc' H; [discriminate|].
  cbn [processChunkSafe] in H. unfold recording at 1 in H.
  destruct (embeddings (fst (runtime acc)) text) as [r [output|]].
  - injection H as <-. exists []. reflexivity.
  - destruct (len text <? 10).
    + injection H as <-. exists []. reflexivity.
    + set (acc0 := {| runtime := (r, snd (runtime acc) ++ [text]); vectors := vectors acc;
                      safeChunks := safeChunks acc |}) in H.
      assert (exists a r1,
                 (if truthy (leftHalf text)
                  then processChunkSafe (recording embeddings) fuel acc0 (leftHalf text)
                  else Some acc0) = Some a
                 /\ snd (runtime a) = snd (runtime acc) ++ text :: r1)
        as [a [r1 [Ha Hr1]]].
      { destruct (truthy (leftHalf text)).
        - destruct (processChunkSafe (recording embeddings) fuel acc0 (leftHalf text))
            as [a|] eqn:E; [|discriminate].
          destruct (IH _ _ _ E) as [r1 Hr1]. exists a. eexists. split; [reflexivity|].
          rewrite Hr1. simpl. rewrite <- app_assoc. reflexivity.
        - exists acc0, []. split; reflexivity. }
      rewrite Ha in H. destruct (truthy (rightHalf text)).
      * destruct (IH _ _ _ H) as [r2 Hr2]. eexists.
        rewrite Hr2, Hr1, <- app_assoc. reflexivity.
      * injection H as <-. eauto.
Qed.

End Embedding.

(** C5, counterexample. The runtime rejects ["abcdefghij"], whose length
    10 does not exceed 10; the chunk is bisected all the same, and both
    halves, of length 5, are submitted for embedding (and indexed). *)
Lemma processChunkSafe_floor_counterexample :
  snd (shortOnly tt (lit "abcdefghij")) = None
  /\ len (lit "abcdefghij") = 10
  /\ processChunkSafe (recording shortOnly) 2 freshAcc (lit "abcdefghij")
     = Some tenUnitsAcc
  /\ snd (runtime tenUnitsAcc) = [lit "abcdefghij"; lit "abcde"; lit "fghij"]
  /\ len (lit "abcde") < 10.
Proof. repeat split; vm_compute; reflexivity. Qed.

(** C5, as amended. [processChunkSafe] always returns, within a
    recursion depth of the length of the chunk plus one. When the embedding
    call on a chunk fails, the texts submitted next are: nothing more if the
    chunk is shorter than 10 units, and the chunk is then left out of the
    index; otherwise the trimmed left half at the midpoint and what its
    retry submits, then the trimmed right half and what its retry submits,
    an empty half being skipped. The floor is tested on the failing chunk
    only, so a non-empty half is submitted whatever its length. *)
Theorem processChunkSafe_floor (Runtime : Type)
    (embeddings : Runtime -> jsstring -> Runtime * option Similarity.vector)
    (acc : Acc (Runtime * list jsstring)) (text : jsstring) :
  (exists acc',
      processChunkSafe (recording embeddings) (S (length text)) acc text = Some acc')
  /\ forall fuel acc',
       processChunkSafe (recording embeddings) fuel acc text = Some acc' ->
       snd (embeddings (fst (runtime acc)) text) = None ->
       exists sl sr,
         snd (runtime acc') = snd (runtime acc) ++ [text] ++ sl ++ sr
         /\ hd_error sl = (if (10 <=? len text) && truthy (leftHalf text)
                           then Some (leftHalf text) else None)
         /\ hd_error sr = (if (10 <=? len text) && truthy (rightHalf text)
                           then Some (rightHalf text) else None)
         /\ (len text < 10 ->
             vectors acc' = vectors acc /\ safeChunks acc' = safeChunks acc).
Proof.
  split; [apply processChunkSafe_enough_fuel; lia|].
  intros [|fuel] acc' H Hfail; [discriminate|].
  cbn [processChunkSafe] in H. unfold recording at 1 in H.
  destruct (embeddings (fst (runtime acc)) text) as [r [output|]];
    [discriminate|clear Hfail].
  destruct (Z.ltb_spec (len text) 10) as [Hs|Hl].
  - injection H as <-. exists [], []. simpl.
    replace (10 <=? len text) with false by (symmetry; apply Z.leb_gt; lia).
    repeat split.
  - replace (10 <=? len text) with true by (symmetry; apply Z.leb_le; lia).
    cbn [andb].
    set (acc0 := {| runtime := (r, snd (runtime acc) ++ [text]);
                    vectors := vectors acc; safeChunks := safeChunks acc |}) in H.
    assert (exists a sl,
               (if truthy (leftHalf text)
                then processChunkSafe (recording embeddings) fuel acc0 (leftHalf text)
                else Some acc0) = Some a
               /\ snd (runtime a) = snd (runtime acc) ++ [text] ++ sl
               /\ hd_error sl = (if truthy (leftHalf text)
                                 then Some (leftHalf text) else None))
      as [a [sl [Ha [Hsl Hhd]]]].
    { destruct (truthy (leftHalf text)).
      - destruct (processChunkSafe (recording embeddings) fuel acc0 (leftHalf text))
          as [a|] eqn:E; [|discriminate].
        destruct (processChunkSafe_calls Runtime embeddings _ _ _ _ E) as [r1 Hr1].
        exists a, (leftHalf text :: r1). split; [reflexivity|]. split; [|reflexivity].
        rewrite Hr1. simpl. rewrite <- app_assoc. reflexivity.
      - exists acc0, []. split; [reflexivity|]. split; [|reflexivity].
        simpl. reflexivity. }
    rewrite Ha in H. exists sl. destruct (truthy (rightHalf text)).
    + destruct (processChunkSafe_calls Runtime embeddings _ _ _ _ H) as [r2 Hr2].
      exists (rightHalf text :: r2). split; [|split; [exact Hhd|split; [reflexivity|lia]]].
      rewrite Hr2, Hsl. rewrite <- !app_assoc. reflexivity.
    + injection H as <-. exists []. split; [|split; [exact Hhd|split; [reflexivity|lia]]].
      rewrite Hsl, app_nil_r. reflexivity.
Qed.

Lemma processChunkSafe_floor_witness :
  exists sl sr,
    snd (runtime tenUnitsAcc) = snd (runtime freshAcc) ++ [lit "abcdefghij"] ++ sl ++ sr
    /\ hd_error sl = (if (10 <=? len (lit "abcdefghij")) && truthy (leftHalf (lit "abcdefghij"))
                      then Some (leftHalf (lit "abcdefghij")) else None)
    /\ hd_error sr = (if (10 <=? len (lit "abcdefghij")) && truthy (rightHalf (lit "abcdefghij"))
                      then Some (rightHalf (lit "abcdefghij")) else None)
    /\ (len (lit "abcdefghij") < 10 ->
        vectors tenUnitsAcc = vectors freshAcc
        /\ safeChunks tenUnitsAcc = safeChunks freshAcc).
Proof.
  apply (proj2 (processChunkSafe_floor unit shortOnly freshAcc (lit "abcdefghij")) 2%nat);
    vm_compute; reflexivity.
Defined.

End IndexingProofs.

(* ===================================================================== *)
(** * Facts about binary64 numbers *)
(* ===================================================================== *)

Module FloatFacts.

Import Similarity.

(** ** The order of [SFcompare] *)

Ltac cmp_cases :=
  repeat match goal with
    | H : context [Pos.compare_cont Eq ?a ?b] |- _ =>
        change (Pos.compare_cont Eq a b) with (Pos.compare a b) in H
    | |- context [Pos.compare_cont Eq ?a ?b] =>
        change (Pos.compare_cont Eq a b) with (Pos.compare a b)
    end;
  repeat match goal with
    | H : context [Z.compare ?a ?b] |- _ => destruct (Z.compare_spec a b)
    | |- context [Z.compare ?a ?b] => destruct (Z.compare_spec a b)
    | H : context [Pos.compare ?a ?b] |- _ => destruct (Pos.compare_spec a b)
    | |- context [Pos.compare ?a ?b] => destruct (Pos.compare_spec a b)
    end;
  simpl in *; try discriminate; try reflexivity; try congruence; try lia.

Lemma SFcompare_refl x : x <> S754_nan -> SFcompare x x = Some Eq.
Proof.
  destruct x as [s|s| |s m e]; intros H; try congruence; destruct s; simpl;
    try reflexivity; rewrite Z.compare_refl;
    change (Pos.compare_cont Eq m m) with (Pos.compare m m);
    rewrite Pos.compare_refl; reflexivity.
Qed.

Lemma SFcompare_antisym x y c :
  SFcompare x y = Some c -> SFcompare y x = Some (CompOpp c).
Proof.
  destruct x as [s|s| |s m e], y as [s'|s'| |s' m' e']; simpl; try discriminate;
    try destruct s; try destruct s'; intros H; injection H as <-; try reflexivity;
    f_equal; cmp_cases.
Qed.

Lemma SFcompare_lt_trans x y z :
  SFcompare x y = Some Lt -> SFcompare y z = Some Lt -> SFcompare x z = Some Lt.
Proof.
  destruct x as [s|s| |s m e], y as [s'|s'| |s' m' e'], z as [s''|s''| |s'' m'' e''];
    simpl; try discriminate;
    try destruct s; try destruct s'; try destruct s''; try discriminate;
    try reflexivity; intros H1 H2; injection H1 as H1; injection H2 as H2;
    f_equal; cmp_cases.
Qed.

Lemma SFcompare_eq_l x y z :
  SFcompare x y = Some Eq -> SFcompare x z = SFcompare y z.
Proof.
  destruct x as [s|s| |s m e], y as [s'|s'| |s' m' e'], z as [s''|s''| |s'' m'' e''];
    simpl; try discriminate;
    try destruct s; try destruct s'; try destruct s''; try discriminate;
    try reflexivity; intros H1; injection H1 as H1;
    f_equal; cmp_cases.
Qed.


Lemma SFcompare_eq_r x y z :
  SFcompare y z = Some Eq -> SFcompare x y = SFcompare x z.
Proof.
  destruct x as [s|s| |s m e], y as [s'|s'| |s' m' e'], z as [s''|s''| |s'' m'' e''];
    simpl; try discriminate;
    try destruct s; try destruct s'; try destruct s''; try discriminate;
    try reflexivity; intros H1; injection H1 as H1;
    f_equal; cmp_cases.
Qed.

Lemma SFleb_trans x y z :
  SFleb x y = true -> SFleb y z = true -> SFleb x z = true.
Proof.
  unfold SFleb.
  destruct (SFcompare x y) as [[ | | ]|] eqn:Exy; try discriminate;
    destruct (SFcompare y z) as [[ | | ]|] eqn:Eyz; try discriminate; intros _ _.
  - rewrite (SFcompare_eq_l x y z Exy), Eyz. reflexivity.
  - rewrite (SFcompare_eq_l x y z Exy), Eyz. reflexivity.
  - rewrite <- (SFcompare_eq_r x y z Eyz), Exy. reflexivity.
  - rewrite (SFcompare_lt_trans x y z Exy Eyz). reflexivity.
Qed.

(** ** Digits and shifts *)

Lemma digits2_pos_bounds m :
  2 ^ (Zpos (digits2_pos m) - 1) <= Zpos m < 2 ^ Zpos (digits2_pos m).
Proof.
  induction m as [m IH|m IH|]; simpl digits2_pos.
  - rewrite Pos2Z.inj_succ.
    replace (Z.succ (Zpos (digits2_pos m)) - 1) with (Z.succ (Zpos (digits2_pos m) - 1)) by lia.
    rewrite !Z.pow_succ_r by lia. lia.
  - rewrite Pos2Z.inj_succ.
    replace (Z.succ (Zpos (digits2_pos m)) - 1) with (Z.succ (Zpos (digits2_pos m) - 1)) by lia.
    rewrite !Z.pow_succ_r by lia. lia.
  - simpl. lia.
Qed.

Lemma iter_xO m d : Zpos (Pos.iter xO m d) = Zpos m * 2 ^ Zpos d.
Proof.
  revert m. induction d as [|d IH] using Pos.peano_ind; intros m.
  - simpl. lia.
  - rewrite Pos.iter_succ, Pos2Z.inj_succ, Z.pow_succ_r by lia.
    rewrite Pos2Z.inj_xO, IH. lia.
Qed.

Lemma shl_align_value m e e' :
  e' <= e -> Zpos (fst (shl_align m e e')) = Zpos m * 2 ^ (e - e').
Proof.
  intros H. unfold shl_align.
  destruct (e' - e) as [|d|d] eqn:E; simpl fst.
  - replace (e - e') with 0 by lia. lia.
  - lia.
  - rewrite iter_xO. f_equal. f_equal. lia.
Qed.

Lemma shl_align_snd m e e' : snd (shl_align m e e') = Z.min e e'.
Proof.
  unfold shl_align. destruct (e' - e) eqn:E; simpl; lia.
Qed.

Lemma shr_1_half mrs : 0 <= shr_m mrs -> shr_m (shr_1 mrs) = shr_m mrs / 2.
Proof.
  destruct mrs as [m r s]. cbn [shr_m]. intros H.
  destruct m as [|[p|p|]|p]; cbn [shr_1 shr_m];
    first [ lia | reflexivity
          | rewrite Pos2Z.inj_xI; apply Z.div_unique with 1; lia
          | rewrite Pos2Z.inj_xO; apply Z.div_unique with 0; lia ].
Qed.

Lemma iter_shr_1_lower p :
  forall k mrs,
    Zpos p <= k -> 2 ^ k <= shr_m mrs ->
    2 ^ (k - Zpos p) <= shr_m (iter_pos shr_1 p mrs).
Proof.
  assert (forall k mrs, 1 <= k -> 2 ^ k <= shr_m mrs ->
                        2 ^ (k - 1) <= shr_m (shr_1 mrs)) as Hone.
  { intros k mrs Hk H. assert (0 < 2 ^ k) by (apply Z.pow_pos_nonneg; lia).
    rewrite shr_1_half by lia.
    apply Z.div_le_lower_bound; [lia|].
    replace k with (Z.succ (k - 1)) in H at 1 by lia.
    rewrite Z.pow_succ_r in H by lia. lia. }
  induction p as [p IH|p IH|]; intros k mrs Hk H; simpl iter_pos.
  - replace (k - Z.pos p~1) with (k - 1 - Zpos p - Zpos p) by lia.
    apply IH; [lia|]. apply IH; [lia|]. apply Hone; [lia|exact H].
  - replace (k - Z.pos p~0) with (k - Zpos p - Zpos p) by lia.
    apply IH; [lia|]. apply IH; [lia|exact H].
  - apply Hone; [lia|exact H].
Qed.

Section Rounding.

(** A positive mantissa above the least exponent stays positive through
    [shr_fexp]. *)
Lemma shr_fexp_positive m e l :
  0 < m -> SpecFloat.emin prec emax <= e ->
  0 < shr_m (fst (shr_fexp prec emax m e l))
  /\ SpecFloat.emin prec emax <= snd (shr_fexp prec emax m e l).
Proof.
  intros Hm He. unfold shr_fexp, shr.
  destruct m as [|m|m]; try lia. simpl Zdigits2.
  set (d := Zpos (digits2_pos m)).
  assert (shr_m (shr_record_of_loc (Zpos m) l) = Zpos m) as Hrec
    by (destruct l as [|[ | | ]]; reflexivity).
  destruct (fexp prec emax (d + e) - e) as [|p|p] eqn:E; simpl fst; simpl snd.
  - rewrite Hrec. lia.
  - unfold fexp in E. 
    assert (Zpos p = d - prec) as Hp by lia.
    pose proof (digits2_pos_bounds m) as [Hlo _]. fold d in Hlo.
    assert (Zpos p <= d - 1) by (unfold prec in *; lia).
    pose proof (iter_shr_1_lower p (d - 1) (shr_record_of_loc (Zpos m) l)) as Hs.
    rewrite Hrec in Hs. specialize (Hs ltac:(lia) Hlo).
    assert (0 < 2 ^ (d - 1 - Zpos p)) by (apply Z.pow_pos_nonneg; lia).
    lia.
  - rewrite Hrec. lia.
Qed.

Lemma round_nearest_even_ge m l : m <= round_nearest_even m l.
Proof. destruct l as [|[ | | ]]; simpl; try lia. destruct (Z.even m); lia. Qed.

(** Rounding a positive mantissa above the least exponent never gives a
    zero or a NaN, and keeps the sign. *)
Lemma binary_round_aux_sign s m e l :
  0 < m -> SpecFloat.emin prec emax <= e ->
  (exists m' e', binary_round_aux prec emax s m e l = S754_finite s m' e')
  \/ binary_round_aux prec emax s m e l = S754_infinity s.
Proof.
  intros Hm He. unfold binary_round_aux.
  destruct (shr_fexp_positive m e l Hm He) as [H1 H2].
  destruct (shr_fexp prec emax m e l) as [mrs' e'] eqn:E1. simpl in H1, H2.
  pose proof (round_nearest_even_ge (shr_m mrs') (loc_of_shr_record mrs')) as Hr.
  destruct (shr_fexp_positive (round_nearest_even (shr_m mrs') (loc_of_shr_record mrs'))
              e' loc_Exact ltac:(lia) H2) as [H3 H4].
  destruct (shr_fexp prec emax _ e' loc_Exact) as [mrs'' e''] eqn:E2. simpl in H3, H4.
  destruct (shr_m mrs'') as [|m''|m'']; try lia.
  destruct (e'' <=? emax - prec); eauto.
Qed.

Lemma binary_normalize_sign m e :
  SpecFloat.emin prec emax <= e ->
  SFltb (S754_zero false) (binary_normalize prec emax m e false) = (0 <? m).
Proof.
  intros He. unfold binary_normalize.
  assert (forall s p, (exists m' e', binary_round prec emax s p e = S754_finite s m' e')
                      \/ binary_round prec emax s p e = S754_infinity s) as Hround.
  { intros s p. unfold binary_round.
    pose proof (shl_align_snd p e (fexp prec emax (Zpos (digits2_pos p) + e))) as Hsnd.
    destruct (shl_align p e _) as [mz ez]. simpl in Hsnd.
    apply binary_round_aux_sign; [lia|].
    unfold fexp in Hsnd.  lia. }
  destruct m as [|p|p].
  - reflexivity.
  - destruct (Hround false p) as [[m' [e' ->]]| ->]; reflexivity.
  - destruct (Hround true p) as [[m' [e' ->]]| ->]; reflexivity.
Qed.

End Rounding.

(** ** The sign of a difference *)

Lemma bounded_inv m e :
  bounded prec emax m e = true ->
  SpecFloat.emin prec emax <= e
  /\ Zpos (digits2_pos m) <= prec
  /\ (Zpos (digits2_pos m) = prec \/ e = SpecFloat.emin prec emax).
Proof.
  unfold bounded, canonical_mantissa, fexp. intros H.
  apply andb_prop in H. destruct H as [H _]. apply Z.eqb_eq in H. lia.
Qed.

(** Of two canonical mantissas, the one with the greater exponent is the
    greater once both are aligned. *)
Lemma aligned_lt m1 e1 m2 e2 :
  bounded prec emax m1 e1 = true -> bounded prec emax m2 e2 = true ->
  e1 < e2 -> Zpos m1 < Zpos m2 * 2 ^ (e2 - e1).
Proof.
  intros B1 B2 He.
  destruct (bounded_inv m1 e1 B1) as [L1 [D1 _]].
  destruct (bounded_inv m2 e2 B2) as [L2 [_ D2]].
  assert (Zpos (digits2_pos m2) = prec) as Hd by lia.
  pose proof (digits2_pos_bounds m1) as [_ U1].
  pose proof (digits2_pos_bounds m2) as [Lo2 _]. rewrite Hd in Lo2.
  assert (2 ^ Zpos (digits2_pos m1) <= 2 ^ prec) by (apply Z.pow_le_mono_r; lia).
  assert (2 ^ 1 <= 2 ^ (e2 - e1)) as Hp by (apply Z.pow_le_mono_r; lia).
  change (2 ^ 1) with 2 in Hp.
  assert (2 ^ prec = 2 ^ (prec - 1) * 2) as Hs by reflexivity.
  assert (2 ^ (prec - 1) * 2 <= Zpos m2 * 2 ^ (e2 - e1)).
  { apply Z.mul_le_mono_nonneg; lia. }
  lia.
Qed.

Lemma SFsub_sign x y :
  valid_binary x = true -> valid_binary y = true ->
  x <> S754_nan -> y <> S754_nan ->
  SFltb (S754_zero false) (SFsub prec emax y x) = SFltb x y.
Proof.
  intros Vx Vy Nx Ny.
  destruct x as [sx|sx| |sx mx ex], y as [sy|sy| |sy my ey]; try congruence;
    try (destruct sx, sy; reflexivity); try (destruct sx; reflexivity);
    try (destruct sy; reflexivity).
  simpl in Vx, Vy.
  destruct (bounded_inv mx ex Vx) as [Lx _].
  destruct (bounded_inv my ey Vy) as [Ly _].
  unfold SFsub. rewrite binary_normalize_sign by lia.
  rewrite !shl_align_value by lia.
  unfold SFltb, SFcompare.
  change (Pos.compare_cont Eq mx my) with (Pos.compare mx my).
  assert (0 < 2 ^ (ey - Z.min ey ex)) by (apply Z.pow_pos_nonneg; lia).
  assert (0 < 2 ^ (ex - Z.min ey ex)) by (apply Z.pow_pos_nonneg; lia).
  assert (0 < Zpos my * 2 ^ (ey - Z.min ey ex)) as Py by lia.
  assert (0 < Zpos mx * 2 ^ (ex - Z.min ey ex)) as Px by lia.
  assert (match Z.compare ex ey with
          | Eq => match Pos.compare mx my with
                  | Eq => Zpos mx * 2 ^ (ex - Z.min ey ex) = Zpos my * 2 ^ (ey - Z.min ey ex)
                  | Lt => Zpos mx * 2 ^ (ex - Z.min ey ex) < Zpos my * 2 ^ (ey - Z.min ey ex)
                  | Gt => Zpos my * 2 ^ (ey - Z.min ey ex) < Zpos mx * 2 ^ (ex - Z.min ey ex)
                  end
          | Lt => Zpos mx * 2 ^ (ex - Z.min ey ex) < Zpos my * 2 ^ (ey - Z.min ey ex)
          | Gt => Zpos my * 2 ^ (ey - Z.min ey ex) < Zpos mx * 2 ^ (ex - Z.min ey ex)
          end) as Hcmp.
  { destruct (Z.compare_spec ex ey) as [E|E|E].
    - subst ey. rewrite Z.min_id, Z.sub_diag.
      destruct (Pos.compare_spec mx my); subst; lia.
    - pose proof (aligned_lt mx ex my ey Vx Vy E).
      replace (Z.min ey ex) with ex by lia. rewrite Z.sub_diag. lia.
    - pose proof (aligned_lt my ey mx ex Vy Vx E).
      replace (Z.min ey ex) with ey by lia. rewrite Z.sub_diag. lia. }
  revert Py Px Hcmp.
  generalize (Zpos my * 2 ^ (ey - Z.min ey ex)) as A.
  generalize (Zpos mx * 2 ^ (ex - Z.min ey ex)) as B.
  intros B A Py Px Hcmp.
  destruct (Z.compare ex ey); [destruct (Pos.compare mx my)| |];
    destruct sx, sy; cbn [cond_Zopp CompOpp]; cbv iota;
    (apply Z.ltb_lt || apply Z.ltb_ge); lia.
Qed.

(** ** Binary64 scores *)

Local Open Scope float_scope.

Lemma not_nan_spec x : is_nan x = false -> Prim2SF x <> S754_nan.
Proof.
  unfold is_nan. rewrite eqb_spec. intros H E. rewrite E in H. discriminate.
Qed.

(** The comparator [b - a] is positive exactly when [a < b]. *)
Lemma sub_positive a b :
  is_nan a = false -> is_nan b = false -> (0 <? b - a) = (a <? b).
Proof.
  intros Ha Hb. rewrite !ltb_spec, sub_spec.
  change (Prim2SF 0) with (S754_zero false).
  apply SFsub_sign; auto using Prim2SF_valid, not_nan_spec.
Qed.

Lemma ltb_leb a b : (a <? b) = true -> (a <=? b) = true.
Proof.
  rewrite ltb_spec, leb_spec. unfold SFltb, SFleb.
  destruct (SFcompare (Prim2SF a) (Prim2SF b)) as [[ | | ]|]; congruence.
Qed.

Lemma ltb_false_leb a b :
  is_nan a = false -> is_nan b = false -> (a <? b) = false -> (b <=? a) = true.
Proof.
  intros Ha Hb. apply not_nan_spec in Ha, Hb.
  rewrite ltb_spec, leb_spec. unfold SFltb, SFleb.
  destruct (SFcompare (Prim2SF a) (Prim2SF b)) as [c|] eqn:E.
  - rewrite (SFcompare_antisym _ _ _ E). destruct c; simpl; congruence.
  - destruct (Prim2SF a) as [s|s| |s m e], (Prim2SF b) as [s'|s'| |s' m' e'];
      simpl in E; congruence.
Qed.

Lemma leb_trans a b c : (a <=? b) = true -> (b <=? c) = true -> (a <=? c) = true.
Proof. rewrite !leb_spec. apply SFleb_trans. Qed.

Lemma leb_cases a b : (a <=? b) = true -> (a <? b) || (b =? a) = true.
Proof.
  rewrite leb_spec, ltb_spec, eqb_spec. unfold SFleb, SFltb, SFeqb.
  destruct (SFcompare (Prim2SF a) (Prim2SF b)) as [c|] eqn:E; [|discriminate].
  rewrite (SFcompare_antisym _ _ _ E). destruct c; simpl; congruence.
Qed.

Lemma eqb_leb a b : (a =? b) = true -> (b <=? a) = true.
Proof.
  rewrite leb_spec, eqb_spec. unfold SFleb, SFeqb.
  destruct (SFcompare (Prim2SF a) (Prim2SF b)) as [c|] eqn:E; [|discriminate].
  rewrite (SFcompare_antisym _ _ _ E). destruct c; simpl; congruence.
Qed.

(** NaN is absorbing. *)
Lemma add_nan_l y : nan + y = nan.
Proof.
  apply Prim2SF_inj. rewrite add_spec. change (Prim2SF nan) with S754_nan.
  reflexivity.
Qed.

Lemma add_nan_r x : x + nan = nan.
Proof.
  apply Prim2SF_inj. rewrite add_spec. change (Prim2SF nan) with S754_nan.
  destruct (Prim2SF x); reflexivity.
Qed.

Lemma mul_nan_r x : x * nan = nan.
Proof.
  apply Prim2SF_inj. rewrite mul_spec. change (Prim2SF nan) with S754_nan.
  destruct (Prim2SF x); reflexivity.
Qed.

Lemma div_nan_l y : nan / y = nan.
Proof.
  apply Prim2SF_inj. rewrite div_spec. change (Prim2SF nan) with S754_nan.
  reflexivity.
Qed.

End FloatFacts.

(* ===================================================================== *)
(** * SimilarityRanker: the ranking and its order *)
(* ===================================================================== *)

Module SimilarityProofs.

Import Similarity FloatFacts.
Local Open Scope nat_scope.

(** ** The sort *)

Lemma insertSorted_perm {A} (cmp : A -> A -> float) x l :
  Permutation (insertSorted cmp x l) (x :: l).
Proof.
  induction l as [|y l IH]; simpl; [apply Permutation_refl|].
  destruct (0 <? cmp x y)%float; [|apply Permutation_refl].
  apply perm_trans with (y :: x :: l); [now apply perm_skip | apply perm_swap].
Qed.

Lemma sort_perm {A} (cmp : A -> A -> float) l : Permutation (sort cmp l) l.
Proof.
  induction l as [|x l IH]; simpl; [apply perm_nil|].
  apply perm_trans with (x :: sort cmp l);
    [apply insertSorted_perm | now apply perm_skip].
Qed.

(** Whatever is ranked before [y] has a score at least that of [y]. *)
Lemma before_leb a b : before a b = true -> (score b <=? score a)%float = true.
Proof.
  unfold before. intros H. apply orb_prop in H. destruct H as [H|H].
  - now apply ltb_leb.
  - apply andb_prop in H. destruct H as [H _]. now apply eqb_leb.
Qed.

Lemma leb_before a b :
  (score b <=? score a)%float = true -> idx a < idx b -> before a b = true.
Proof.
  intros H Hi. unfold before. apply leb_cases in H.
  apply orb_prop in H. destruct H as [H|H]; rewrite H; [reflexivity|].
  apply Nat.ltb_lt in Hi. rewrite Hi. apply orb_true_r.
Qed.

(** Inserting an entry that precedes, in the original order, every entry
    of a ranked list gives a ranked list. *)
Lemma insertSorted_ranked x l :
  scoreIsNumber x -> Forall scoreIsNumber l ->
  Forall (fun z => idx x < idx z) l ->
  ranked l -> ranked (insertSorted byScoreDesc x l).
Proof.
  intros Hx. unfold ranked.
  induction l as [|y l IH]; intros Hn Hi Hs; simpl.
  - constructor; constructor.
  - inversion Hn as [|? ? Hy Hn']; subst. inversion Hi as [|? ? Hiy Hi']; subst.
    apply StronglySorted_inv in Hs. destruct Hs as [Hs Hall].
    unfold byScoreDesc at 1. rewrite (sub_positive (score x) (score y) Hx Hy).
    destruct (score x <? score y)%float eqn:E.
    + constructor; [now apply IH|].
      apply (Permutation_Forall (Permutation_sym (insertSorted_perm byScoreDesc x l))).
      constructor; [|exact Hall].
      unfold before. rewrite E. reflexivity.
    + pose proof (ltb_false_leb _ _ Hx Hy E) as Hle.
      constructor; [constructor; assumption|].
      constructor; [now apply leb_before|].
      rewrite Forall_forall in *. intros z Hz.
      apply leb_before; [|now apply Hi'].
      apply leb_trans with (score y); [|exact Hle].
      apply before_leb, Hall, Hz.
Qed.

Lemma sort_ranked l :
  Forall scoreIsNumber l ->
  StronglySorted (fun a b => idx a < idx b) l ->
  ranked (sort byScoreDesc l).
Proof.
  induction l as [|x l IH]; intros Hn Hs; simpl.
  - constructor.
  - inversion Hn as [|? ? Hx Hn']; subst.
    apply StronglySorted_inv in Hs. destruct Hs as [Hs Hall].
    apply insertSorted_ranked; [exact Hx| | |now apply IH].
    + apply (Permutation_Forall (Permutation_sym (sort_perm byScoreDesc l))), Hn'.
    + apply (Permutation_Forall (Permutation_sym (sort_perm byScoreDesc l))), Hall.
Qed.

(** ** The scores *)

Lemma scoresFrom_length q embs k : length (scoresFrom q embs k) = length embs.
Proof. revert k. induction embs as [|e embs IH]; intros k; simpl; auto. Qed.

Lemma scoresFrom_idx_ge q embs k :
  Forall (fun s => k <= idx s) (scoresFrom q embs k).
Proof.
  revert k. induction embs as [|e embs IH]; intros k; simpl; constructor.
  - simpl. lia.
  - eapply Forall_impl; [|apply (IH (S k))]. simpl. intros; lia.
Qed.

Lemma scoresFrom_increasing q embs k :
  StronglySorted (fun a b => idx a < idx b) (scoresFrom q embs k).
Proof.
  revert k. induction embs as [|e embs IH]; intros k; simpl; constructor.
  - apply IH.
  - eapply Forall_impl; [|apply (scoresFrom_idx_ge q embs (S k))].
    simpl. intros; lia.
Qed.

Lemma scoresFrom_scored q embs k :
  Forall (scoredFrom q embs k) (scoresFrom q embs k).
Proof.
  revert k. induction embs as [|e embs IH]; intros k; simpl; constructor.
  - exists e. simpl. rewrite Nat.sub_diag. auto.
  - pose proof (scoresFrom_idx_ge q embs (S k)) as Hge.
    specialize (IH (S k)). rewrite Forall_forall in *. intros s Hs.
    destruct (IH s Hs) as [e' [H1 [H2 H3]]]. exists e'.
    split; [lia|]. split; [|exact H3].
    replace (idx s - k) with (S (idx s - S k)) by lia. exact H2.
Qed.

Lemma scoresFrom_numbers q embs k :
  Forall (fun e => is_nan (cosineSimilarity q e) = false) embs ->
  Forall scoreIsNumber (scoresFrom q embs k).
Proof.
  intros H. revert k. induction H as [|e embs He H IH]; intros k; simpl;
    constructor; [exact He | apply IH].
Qed.

(** ** Claims on the ranking *)

(** C7, counterexample. The query [[1; 0]] and four stored embeddings of
    dimension 2, three of zero magnitude and then the query itself: the
    scores are NaN, NaN, NaN and 1, every comparison with a NaN score leaves
    the order as it is, and the top 3 are the three NaN entries. The entry
    of score 1 comes last: the result is not in descending order. *)
Lemma rank_nan_counterexample :
  Forall (fun e => length e = length probeQuery) probeStored
  /\ map (cosineSimilarity probeQuery) probeStored = [nan; nan; nan; 1%float]
  /\ map idx (rank probeQuery probeStored) = [0; 1; 2; 3]
  /\ map idx (top3 probeQuery probeStored) = [0; 1; 2]
  /\ ~ ranked (rank probeQuery probeStored).
Proof.
  split; [repeat constructor|].
  split; [vm_compute; reflexivity|].
  split; [vm_compute; reflexivity|].
  split; [vm_compute; reflexivity|].
  intros H. unfold ranked in H.
  replace (rank probeQuery probeStored)
    with [ {| idx := 0; score := nan |}; {| idx := 1; score := nan |};
           {| idx := 2; score := nan |}; {| idx := 3; score := 1 |} ] in H
    by (vm_compute; reflexivity).
  apply StronglySorted_inv in H. destruct H as [_ H].
  inversion H as [|? ? Hb _]; subst. vm_compute in Hb. discriminate.
Qed.

(** C7, as amended. When no similarity score is NaN, the ranking is a
    permutation of the scored fragments, each entry carrying the position
    of a stored embedding and its similarity to the query; an entry comes
    before another when its score is greater, or the scores are equal and
    its position is smaller; the top 3 are the first three entries of the
    ranking, all of them when fewer than 3 fragments are stored. *)
Theorem rank_sorted_stable (q : vector) (embs : list vector) :
  Forall (fun e => is_nan (cosineSimilarity q e) = false) embs ->
  Permutation (rank q embs) (scoresFrom q embs 0)
  /\ Forall (scoredFrom q embs 0) (rank q embs)
  /\ ranked (rank q embs)
  /\ top3 q embs = firstn 3 (rank q embs)
  /\ length (top3 q embs) = Nat.min 3 (length embs)
  /\ (length embs <= 3 -> top3 q embs = rank q embs).
Proof.
  intros Hn. unfold top3, rank.
  pose proof (sort_perm byScoreDesc (scoresFrom q embs 0)) as P.
  assert (length (sort byScoreDesc (scoresFrom q embs 0)) = length embs) as L
    by (rewrite (Permutation_length P); apply scoresFrom_length).
  split; [exact P|].
  split; [apply (Permutation_Forall (Permutation_sym P)), scoresFrom_scored|].
  split; [apply sort_ranked;
          [now apply scoresFrom_numbers | apply scoresFrom_increasing]|].
  split; [reflexivity|].
  split; [rewrite length_firstn, L; reflexivity|].
  intros Hle. apply firstn_all2. lia.
Qed.

Lemma rank_sorted_stable_witness :
  ranked (rank probeQuery unitStored)
  /\ map idx (top3 probeQuery unitStored) = [0; 2; 1]
  /\ length (top3 probeQuery unitStored) = Nat.min 3 (length unitStored).
Proof.
  assert (Forall (fun e => is_nan (cosineSimilarity probeQuery e) = false) unitStored)
    as Hn by (repeat constructor).
  destruct (rank_sorted_stable probeQuery unitStored Hn) as [_ [_ [R [_ [L _]]]]].
  split; [exact R|]. split; [vm_compute; reflexivity | exact L].
Defined.

(** ** Claims on [cosineSimilarity] *)

Lemma fold_left_ext_in {A B} (f g : A -> B -> A) (l : list B) (a : A) :
  (forall x b, In b l -> f x b = g x b) -> fold_left f l a = fold_left g l a.
Proof.
  revert a. induction l as [|b l IH]; intros a H; simpl; [reflexivity|].
  rewrite (H a b) by now left. apply IH. intros x c Hc. apply H. now right.
Qed.

(** Components of the second vector past the length of the first are
    never read. *)
Lemma cosineSimilarity_truncate q e :
  cosineSimilarity q e = cosineSimilarity q (firstn (length q) e).
Proof.
  unfold cosineSimilarity.
  rewrite (fold_left_ext_in (cosineStep q e) (cosineStep q (firstn (length q) e)));
    [reflexivity|].
  intros [[dot m1] m2] i Hi. apply in_seq in Hi.
  unfold cosineStep, elem. rewrite nth_firstn.
  replace (i <? length q) with true by (symmetry; apply Nat.ltb_lt; lia).
  reflexivity.
Qed.

Lemma cosineStep_nan q e l :
  forall m1 m2, exists m1' m2',
    fold_left (cosineStep q e) l (nan, m1, m2) = (nan, m1', m2').
Proof.
  induction l as [|i l IH]; intros m1 m2; simpl; [eauto|].
  rewrite add_nan_l. apply IH.
Qed.

(** A second vector shorter than the first gives NaN. *)
Lemma cosineSimilarity_short q e :
  length e < length q -> cosineSimilarity q e = nan.
Proof.
  intros H. unfold cosineSimilarity.
  replace (length q) with (length e + S (length q - length e - 1)) by lia.
  rewrite seq_app, fold_left_app. simpl seq. simpl fold_left.
  destruct (fold_left (cosineStep q e) (seq 0 (length e)) (0, 0, 0)%float)
    as [[dot m1] m2].
  unfold cosineStep at 2. unfold elem at 2.
  rewrite (nth_overflow e) by lia. rewrite mul_nan_r, add_nan_r.
  match goal with
  | |- context [fold_left _ ?l (nan, ?a, ?b)] =>
      destruct (cosineStep_nan q e l a b) as [m1' [m2' ->]]
  end.
  apply div_nan_l.
Qed.

(** The retrieval step when the runtime returns the query embedding [q]:
    the context block lists the first three entries of a permutation of
    the scored fragments, which is in ranked order when no score is NaN;
    the warning line is left as it is. *)
Lemma retrieval_ranking (q : vector) (World : Type)
    (setOptions : World -> bool -> World)
    (embed : World -> JsString.jsstring -> World * (JsString.jsstring + vector))
    (doc : ModelSwitch.DocState) (s : Chat.Session World)
    (userText : JsString.jsstring) (w : World) :
  ModelSwitch.chunks doc <> [] ->
  ModelSwitch.embeddings doc <> [] ->
  embed (setOptions (Chat.world s) true) userText = (w, inr q) ->
  exists ranking,
    Permutation ranking (scoresFrom q (ModelSwitch.embeddings doc) 0)
    /\ (Forall (fun e => is_nan (cosineSimilarity q e) = false)
          (ModelSwitch.embeddings doc) -> ranked ranking)
    /\ Chat.retrieval setOptions embed doc s userText
       = ({| Chat.world := w; Chat.messages := Chat.messages s;
             Chat.warning := Chat.warning s;
             Chat.assistantDiv := Chat.assistantDiv s |},
          Chat.contextBlock (ModelSwitch.chunks doc) (firstn 3 ranking)).
Proof.
  intros Hc He Hq. exists (rank q (ModelSwitch.embeddings doc)).
  split; [apply sort_perm|]. split.
  - intros Hn. apply sort_ranked;
      [now apply scoresFrom_numbers | apply scoresFrom_increasing].
  - unfold Chat.retrieval. rewrite Hq.
    destruct (ModelSwitch.chunks doc); [congruence|].
    destruct (ModelSwitch.embeddings doc); [congruence|].
    reflexivity.
Qed.

(** C6, counterexample. A query embedding of length 1 against a stored
    embedding of length 2: the score 1 is computed, and the retrieval step
    returns the context block of the fragment and leaves the warning line
    as it is. No error is raised. *)
Lemma cosineSimilarity_mismatch_counterexample :
  length [1%float] <> length [1%float; 0%float]
  /\ (cosineSimilarity [1] [1; 0] = 1)%float
  /\ Chat.retrieval Chat.quietSetOptions (Chat.embedAs [1%float])
       (Chat.fourFragments [[1; 0]]%float) Chat.freshSession (JsString.lit "capital")
     = (Chat.freshSession,
        Chat.contextBlock (ModelSwitch.chunks (Chat.fourFragments [[1; 0]]%float))
          [{| idx := 0; score := 1%float |}]).
Proof.
  split; [discriminate|]. split; vm_compute; reflexivity.
Qed.

(** C6, as amended. For embeddings of unequal lengths no length-mismatch
    error is raised. [cosineSimilarity] reads as many components as the
    query has: a longer stored embedding is scored on its leading
    components, a shorter one gets the score NaN. Whenever the runtime
    returns a query embedding, whatever its length, the retrieval step
    builds the context block and leaves the warning line as it is: the
    block lists the first three entries of the ranking, which is a
    permutation of the scored fragments, in ranked order when no score is
    NaN and in an order that is the engine's own when some are. *)
Theorem cosineSimilarity_length_mismatch (q e : vector) :
  (length q < length e ->
   cosineSimilarity q e = cosineSimilarity q (firstn (length q) e))
  /\ (length e < length q -> cosineSimilarity q e = nan)
  /\ forall (World : Type) (setOptions : World -> bool -> World)
       (embed : World -> JsString.jsstring -> World * (JsString.jsstring + vector))
       (doc : ModelSwitch.DocState) (s : Chat.Session World)
       (userText : JsString.jsstring) (w : World),
       ModelSwitch.chunks doc <> [] ->
       ModelSwitch.embeddings doc <> [] ->
       embed (setOptions (Chat.world s) true) userText = (w, inr q) ->
       exists ranking,
         Permutation ranking (scoresFrom q (ModelSwitch.embeddings doc) 0)
         /\ (Forall (fun e' => is_nan (cosineSimilarity q e') = false)
               (ModelSwitch.embeddings doc) -> ranked ranking)
         /\ Chat.retrieval setOptions embed doc s userText
            = ({| Chat.world := w; Chat.messages := Chat.messages s;
                  Chat.warning := Chat.warning s;
                  Chat.assistantDiv := Chat.assistantDiv s |},
               Chat.contextBlock (ModelSwitch.chunks doc) (firstn 3 ranking)).
Proof.
  split; [intros _; apply cosineSimilarity_truncate|].
  split; [apply cosineSimilarity_short|].
  intros World setOptions embed doc s userText w.
  apply retrieval_ranking.
Qed.

Lemma cosineSimilarity_length_mismatch_witness :
  (cosineSimilarity [1; 0; 0] [1; 0] = nan)%float
  /\ (cosineSimilarity [1; 0] [1; 0; 5] = cosineSimilarity [1; 0] [1; 0])%float.
Proof.
  split.
  - apply (proj1 (proj2 (cosineSimilarity_length_mismatch [1; 0; 0] [1; 0])%float)).
    simpl. lia.
  - apply (proj1 (cosineSimilarity_length_mismatch [1; 0] [1; 0; 5])%float).
    simpl. lia.
Defined.

(** C10. A query of zero magnitude has similarity NaN with each of four
    stored embeddings; the ranking still completes with three entries, all
    of score NaN, and the retrieval step returns their context block and
    raises no warning. *)
Theorem cosineSimilarity_zero_magnitude :
  exists (q : vector) (stored : list vector),
    Forall (fun x => x = 0%float) q
    /\ Forall (fun e => cosineSimilarity q e = nan) stored
    /\ map idx (top3 q stored) = [0; 1; 2]
    /\ Forall (fun s => is_nan (score s) = true) (top3 q stored)
    /\ Chat.retrieval Chat.quietSetOptions (Chat.embedAs q)
         (Chat.fourFragments stored) Chat.freshSession (JsString.lit "capital")
       = (Chat.freshSession,
          Chat.contextBlock (ModelSwitch.chunks (Chat.fourFragments stored))
            (top3 q stored)).
Proof.
  exists zeroQuery, unitStored.
  split; [repeat constructor|].
  split; [repeat constructor|].
  split; [vm_compute; reflexivity|].
  split; [repeat constructor|].
  vm_compute. reflexivity.
Qed.

End SimilarityProofs.

(* ===================================================================== *)
(** * DocumentIndex: invalidation on model switch *)
(* ===================================================================== *)

Module ModelSwitchProofs.

Import ModelSwitch.

Lemma eqb_eq (a b : jsstring) : JsString.eqb a b = true <-> a = b.
Proof.
  revert b. induction a as [|x a IH]; intros [|y b]; simpl; split;
    try congruence; try reflexivity.
  - intros H. apply andb_prop in H. destruct H as [H1 H2].
    apply N.eqb_eq in H1. apply IH in H2. congruence.
  - intros H. injection H as -> ->. rewrite N.eqb_refl. simpl. now apply IH.
Qed.

Lemma eqb_neq (a b : jsstring) : a <> b -> JsString.eqb a b = false.
Proof.
  intros H. destruct (JsString.eqb a b) eqn:E; [|reflexivity].
  apply eqb_eq in E. contradiction.
Qed.

(** A load that fails leaves the index as it was. *)
Lemma loadModel_failure_keeps_index forcedNBatch selected app :
  docState (loadModel forcedNBatch selected false app) = docState app.
Proof.
  unfold loadModel.
  destruct (btnLoadDisabled app && negb (wllama app)); [reflexivity|].
  destruct (negb (truthy selected)); reflexivity.
Qed.

(** C8. A call of [loadModel] that is not ignored and loads the selected
    model, made while the index holds at least one fragment: when the
    selected model differs from the one recorded in the index, the
    embeddings become the empty array, the fragments, their number, the
    document name and the recorded model are unchanged, and the warning
    asks to upload the PDF again; when it is the recorded one, the index is
    unchanged and no warning is shown. *)
Theorem loadModel_invalidates_index (forcedNBatch : option Z)
    (selected : jsstring) (app : App) :
  btnLoadDisabled app && negb (wllama app) = false ->
  selected <> [] ->
  chunks (docState app) <> [] ->
  (modelUrl (docState app) <> selected ->
   embeddings (docState (loadModel forcedNBatch selected true app)) = []
   /\ chunks (docState (loadModel forcedNBatch selected true app))
      = chunks (docState app)
   /\ length (chunks (docState (loadModel forcedNBatch selected true app)))
      = length (chunks (docState app))
   /\ name (docState (loadModel forcedNBatch selected true app))
      = name (docState app)
   /\ modelUrl (docState (loadModel forcedNBatch selected true app))
      = modelUrl (docState app)
   /\ warn (loadModel forcedNBatch selected true app) = modelSwitchedWarning)
  /\ (modelUrl (docState app) = selected ->
      docState (loadModel forcedNBatch selected true app) = docState app
      /\ warn (loadModel forcedNBatch selected true app) = []).
Proof.
  intros Hrun Hsel Hchunks. unfold loadModel. rewrite Hrun.
  destruct selected as [|c selected]; [congruence|]. cbn [truthy negb].
  unfold indexIsStale.
  destruct (chunks (docState app)) as [|f fs] eqn:Ec; [congruence|].
  replace (0 <? Z.of_nat (length (f :: fs))) with true
    by (symmetry; apply Z.ltb_lt; simpl length; lia).
  cbn [andb]. split.
  - intros Hne. rewrite (eqb_neq _ _ Hne). cbn [negb docState warn].
    unfold clearEmbeddings. cbn [embeddings chunks name modelUrl].
    rewrite Ec. repeat split.
  - intros He. rewrite (proj2 (eqb_eq _ _) He). cbn [negb docState warn].
    split; reflexivity.
Qed.

Lemma loadModel_invalidates_index_witness :
  embeddings (docState (loadModel None qwen true indexedApp)) = []
  /\ chunks (docState (loadModel None qwen true indexedApp))
     = chunks (docState indexedApp)
  /\ warn (loadModel None qwen true indexedApp) = modelSwitchedWarning
  /\ docState (loadModel None tinyllama true indexedApp) = docState indexedApp.
Proof.
  assert (btnLoadDisabled indexedApp && negb (wllama indexedApp) = false) as H1
    by reflexivity.
  assert (chunks (docState indexedApp) <> []) as H3 by discriminate.
  destruct (loadModel_invalidates_index None qwen indexedApp H1
              ltac:(discriminate) H3) as [Hd _].
  destruct (loadModel_invalidates_index None tinyllama indexedApp H1
              ltac:(discriminate) H3) as [_ Hs].
  destruct (Hd ltac:(discriminate)) as [E1 [E2 [_ [_ [_ E3]]]]].
  destruct (Hs eq_refl) as [E4 _].
  repeat split; assumption.
Defined.

End ModelSwitchProofs.

(* ===================================================================== *)
(** * ChatOrchestrator: the non-streaming fallback *)
(* ===================================================================== *)

Module ChatProofs.

Import Chat.
Local Set Warnings "-inexact-float".

Section Turn.

Variable World : Type.
Variable setOptions : World -> bool -> World.
Variable completeStream :
  World -> list ChatMessage -> CompletionOptions -> World * StreamOutcome.
Variable completeText :
  World -> list ChatMessage -> CompletionOptions -> World * TextOutcome.
Variable aborted : World -> bool.
Variable Decoder : Type.
Variable decoder0 : Decoder.
Variable decode : Decoder -> list N -> Decoder * jsstring.

(** The inference step on the recording runtime, and the requests
    recorded in a session. *)
Let generate (s : Session (Recorded World)) : Session (Recorded World) :=
  generation (recSetOptions setOptions) (recStream completeStream)
    (recText completeText) (recAborted aborted) decoder0 decode s.

Let requests (s : Session (Recorded World)) : list CompletionOptions :=
  snd (world s).

Lemma fold_consume_accumulated chunks :
  exists d shown,
    fold_left (consumeChunk decode) chunks (decoder0, [], [])
    = (d, accumulated decoder0 decode chunks, shown).
Proof.
  unfold accumulated.
  destruct (fold_left (consumeChunk decode) chunks (decoder0, [], []))
    as [[d acc] shown].
  exists d, shown. reflexivity.
Qed.

(** The inference step on the recording runtime, once the streaming
    request has returned [out] in the runtime state [w1]. *)
Lemma generation_recorded (s : Session (Recorded World)) (w1 : World)
    (out : StreamOutcome) :
  completeStream (setOptions (fst (world s)) false) (messages s) streamOptions
  = (w1, out) ->
  generation (recSetOptions setOptions) (recStream completeStream)
    (recText completeText) (recAborted aborted) decoder0 decode s
  = match out with
    | inl message =>
        onError (recAborted aborted) s (w1, snd (world s) ++ [streamOptions])
          [] message
    | inr (chunks, ending) =>
        let '(_, acc, shown) :=
          fold_left (consumeChunk decode) chunks (decoder0, [], []) in
        match ending with
        | Some message =>
            onError (recAborted aborted) s (w1, snd (world s) ++ [streamOptions])
              acc message
        | None =>
            if (len acc =? 0) && negb (aborted w1) then
              match completeText w1 (messages s) fallbackOptions with
              | (w2, inr fallback) =>
                  onDone s (w2, (snd (world s) ++ [streamOptions]) ++ [fallbackOptions])
                    fallback fallback
              | (w2, inl message) =>
                  onError (recAborted aborted) s
                    (w2, (snd (world s) ++ [streamOptions]) ++ [fallbackOptions])
                    acc message
              end
            else onDone s (w1, snd (world s) ++ [streamOptions]) acc shown
        end
    end.
Proof.
  intros Hsent.
  unfold generation, recStream, recSetOptions, recText, recAborted.
  cbn [fst snd]. rewrite Hsent. cbn [fst snd].
  destruct out as [message|[chunks ending]]; [reflexivity|].
  destruct (fold_left (consumeChunk decode) chunks (decoder0, [], []))
    as [[d acc] shown].
  destruct ending as [message|]; [reflexivity|].
  destruct ((len acc =? 0) && negb (aborted w1)); [|reflexivity].
  destruct (completeText w1 (messages s) fallbackOptions) as [w2 [message|text]];
    reflexivity.
Qed.

(** C9. Let the streaming request return [out] in the runtime state
    [w1]. If the stream ends normally with nothing accumulated and the turn
    is not cancelled, the requests made are the streaming one and then one
    non-streaming request with [nPredict] 128 and temperature 0.1, and the
    text it returns is shown and pushed on the history. If something was
    accumulated, or the turn is cancelled, or the stream or the request
    fails, the streaming request is the only one made. *)
Theorem generation_fallback (s : Session (Recorded World)) (w1 : World)
    (out : StreamOutcome) :
  completeStream (setOptions (fst (world s)) false) (messages s) streamOptions
  = (w1, out) ->
  (forall chunks,
      out = inr (chunks, None) ->
      accumulated decoder0 decode chunks = [] ->
      aborted w1 = false ->
      requests (generate s) = requests s ++ [streamOptions; fallbackOptions]
      /\ forall w2 text,
           completeText w1 (messages s) fallbackOptions = (w2, inr text) ->
           assistantDiv (generate s) = text
           /\ messages (generate s)
              = messages s ++ [{| role := assistant; content := text |}])
  /\ (forall chunks ending,
         out = inr (chunks, ending) ->
         accumulated decoder0 decode chunks <> [] \/ aborted w1 = true ->
         requests (generate s) = requests s ++ [streamOptions])
  /\ (forall chunks message,
         out = inr (chunks, Some message) ->
         requests (generate s) = requests s ++ [streamOptions])
  /\ (forall message,
         out = inl message ->
         requests (generate s) = requests s ++ [streamOptions])
  /\ stream fallbackOptions = false
  /\ nPredict fallbackOptions = 128
  /\ temp (sampling fallbackOptions) = 0.1%float.
Proof.
  intros Hsent.
  pose proof (generation_recorded s w1 out Hsent) as Hgen.
  unfold requests. fold (generate s) in Hgen. rewrite Hgen. clear Hgen.
  assert (forall w l acc message,
             snd (world (onError (recAborted aborted) s (w, l) acc message)) = l)
    as Herr.
  { intros w l acc message. unfold onError. destruct (recAborted aborted _); reflexivity. }
  split; [|split; [|split; [|split]]].
  - intros chunks -> Hacc Hab.
    destruct (fold_consume_accumulated chunks) as [d [shown ->]].
    rewrite Hacc, Hab. cbn [len length Z.of_nat Z.eqb andb negb].
    destruct (completeText w1 (messages s) fallbackOptions) as [w2 [message|text]].
    + split; [rewrite Herr, <- app_assoc; reflexivity|].
      intros w2' text' H. discriminate.
    + split; [cbn; rewrite <- app_assoc; reflexivity|].
      intros w2' text' H. injection H as <- <-. split; reflexivity.
  - intros chunks ending -> Hor.
    destruct (fold_consume_accumulated chunks) as [d [shown ->]].
    destruct ending as [message|]; [apply Herr|].
    destruct Hor as [Hacc|Hab].
    + destruct (accumulated decoder0 decode chunks) as [|c acc]; [congruence|].
      replace (len (c :: acc) =? 0) with false
        by (symmetry; apply Z.eqb_neq; unfold len; simpl length; lia).
      reflexivity.
    + rewrite Hab, andb_false_r. reflexivity.
  - intros chunks message ->.
    destruct (fold_consume_accumulated chunks) as [d [shown ->]]. apply Herr.
  - intros message ->. apply Herr.
  - repeat split.
Qed.

End Turn.

Lemma generation_fallback_witness :
  snd (world (generation (recSetOptions quietSetOptions) (recStream emptyStream)
                (recText helloText) (recAborted neverAborted) tt byteDecoder
                freshRecorded))
  = [streamOptions; fallbackOptions]
  /\ assistantDiv (generation (recSetOptions quietSetOptions) (recStream emptyStream)
                     (recText helloText) (recAborted neverAborted) tt byteDecoder
                     freshRecorded)
     = lit "Hello".
Proof.
  destruct (generation_fallback unit quietSetOptions emptyStream helloText
              neverAborted unit tt byteDecoder freshRecorded tt (inr ([], None))
              eq_refl) as [H _].
  destruct (H [] eq_refl eq_refl eq_refl) as [Hreq Hres].
  destruct (Hres tt (lit "Hello") eq_refl) as [Hdiv _].
  split; [exact Hreq | exact Hdiv].
Defined.

End ChatProofs.

(* ===================================================================== *)
(** * Further facts about [trim] *)
(* ===================================================================== *)

Module TrimFacts.

Import TextProps JsStringFacts.

Lemma trimStart_head s c : hd_error (trimStart s) = Some c -> is_ws c = false.
Proof.
  induction s as [|x s IH]; simpl; [discriminate|].
  destruct (is_ws x) eqn:E; [exact IH|]. simpl. intros H. congruence.
Qed.

Lemma trimStart_snoc l c : is_ws c = false -> trimStart (l ++ [c]) = trimStart l ++ [c].
Proof.
  intros H. induction l as [|x l IH]; simpl; [now rewrite H|].
  destruct (is_ws x); [exact IH | reflexivity].
Qed.

Lemma trim_trimmed s : trimmed (trim s).
Proof.
  unfold trimmed, trim, trimEnd. split; intros c H.
  - pose proof (trimStart_head s) as Hh.
    destruct (trimStart s) as [|x t]; [discriminate|].
    specialize (Hh x eq_refl).
    simpl rev in H. rewrite (trimStart_snoc (rev t) x Hh) in H.
    rewrite rev_app_distr in H. simpl in H. congruence.
  - rewrite rev_involutive in H. exact (trimStart_head _ _ H).
Qed.

Lemma trimStart_blank s : blank s -> trimStart s = [].
Proof.
  induction 1 as [|x s Hx Hs IH]; simpl; [reflexivity|]. now rewrite Hx.
Qed.

Lemma trim_blank s : blank s -> trim s = [].
Proof. intros H. unfold trim. rewrite (trimStart_blank s H). reflexivity. Qed.

Lemma nonBlank_trimStart s : nonBlank (trimStart s) = nonBlank s.
Proof.
  induction s as [|x s IH]; simpl; [reflexivity|].
  destruct (is_ws x) eqn:E; simpl; rewrite ?E; simpl; [exact IH | reflexivity].
Qed.

Lemma nonBlank_trim s : nonBlank (trim s) = nonBlank s.
Proof.
  unfold trim, trimEnd, nonBlank.
  rewrite filter_rev. fold (nonBlank (trimStart (rev (trimStart s)))).
  rewrite nonBlank_trimStart. unfold nonBlank. rewrite filter_rev, rev_involutive.
  apply nonBlank_trimStart.
Qed.

Lemma nonBlank_app s t : nonBlank (s ++ t) = nonBlank s ++ nonBlank t.
Proof. apply filter_app. Qed.

Lemma blank_firstn n s : blank s -> blank (firstn n s).
Proof.
  unfold blank. intros H. revert n. induction H as [|x s Hx Hs IH]; intros [|n]; simpl;
    constructor; auto.
Qed.

Lemma blank_skipn n s : blank s -> blank (skipn n s).
Proof.
  unfold blank. intros H. revert n. induction H as [|x s Hx Hs IH]; intros [|n]; simpl;
    try constructor; auto.
Qed.

Lemma blank_substring s a b : blank s -> blank (substring s a b).
Proof. intros H. unfold substring. apply blank_firstn, blank_skipn, H. Qed.

(** A prefix and the rest of the text, as [substring] cuts them at any
    index, give back the text. *)
Lemma substring_split s k : substring s 0 k ++ substring_from s k = s.
Proof.
  unfold substring_from, substring, clamp. pose proof (len_nonneg s).
  replace (Z.min (Z.max 0 (Z.min 0 (len s))) (Z.max 0 (Z.min k (len s)))) with 0 by lia.
  replace (Z.max (Z.max 0 (Z.min 0 (len s))) (Z.max 0 (Z.min k (len s))))
    with (Z.max 0 (Z.min k (len s))) by lia.
  replace (Z.min (Z.max 0 (Z.min k (len s))) (Z.max 0 (Z.min (len s) (len s))))
    with (Z.max 0 (Z.min k (len s))) by lia.
  replace (Z.max (Z.max 0 (Z.min k (len s))) (Z.max 0 (Z.min (len s) (len s))))
    with (len s) by lia.
  rewrite Z.sub_0_r. simpl skipn.
  set (n := Z.to_nat (Z.max 0 (Z.min k (len s)))).
  replace (Z.to_nat (len s - Z.max 0 (Z.min k (len s)))) with (length s - n)%nat
    by (unfold n, len; lia).
  rewrite <- (length_skipn n s), firstn_all. apply firstn_skipn.
Qed.

End TrimFacts.

(* ===================================================================== *)
(** * ChunkSplitter: shape of the fragments, other sizes and overlaps *)
(* ===================================================================== *)

Module ChunkerExtras.

Import Chunker TextProps JsStringFacts TrimFacts ChunkerProofs.

(** A cut made before the end of the text, for any size of at least 100. *)
Lemma cutPoint_range text size i :
  0 <= i -> 100 <= size -> i + size < len text ->
  i + size - 99 <= cutPoint text size i <= Z.min (i + size + 20) (len text).
Proof.
  intros Hi Hs Hlt. unfold cutPoint.
  apply Z.ltb_lt in Hlt. rewrite Hlt. apply Z.ltb_lt in Hlt.
  set (w := substring text (i + size - 100) (i + size + 20)).
  assert (len w = Z.min (i + size + 20) (len text) - (i + size - 100)) as Hw.
  { unfold w. rewrite substring_len by lia. lia. }
  destruct (breakIdx_range w) as [E|E].
  - rewrite E. simpl. lia.
  - destruct (Z.eqb_spec (breakIdx w) (-1)); simpl; lia.
Qed.

(** The loop rule: a property of the cursor and the windows that every
    iteration keeps holds when the loop ends, with the cursor past the
    text. *)
Lemma windowLoop_rule text size overlap (I : Z -> list (Z * Z) -> Prop) :
  (forall i ws, I i ws -> i < len text ->
     I (nextCursor text overlap (cutPoint text size i))
       (ws ++ [(i, cutPoint text size i)])) ->
  forall fuel i ws result,
    I i ws -> windowLoop fuel text size overlap i ws = Some result ->
    exists i', len text <= i' /\ I i' result.
Proof.
  intros Hstep. induction fuel as [|fuel IH]; intros i ws result Hi H; simpl in H.
  - destruct (Z.ltb_spec i (len text)); [discriminate|].
    injection H as <-. eauto.
  - destruct (Z.ltb_spec i (len text)) as [Hlt|Hge].
    + eapply IH; [|exact H]. now apply Hstep.
    + injection H as <-. eauto.
Qed.

Lemma chained_snoc n overlap l w1 w2 :
  chained n overlap (l ++ [w1]) ->
  (if snd w1 <? n then fst w2 = snd w1 else fst w2 = snd w1 - overlap) ->
  chained n overlap ((l ++ [w1]) ++ [w2]).
Proof.
  intros Hc Hl. induction l as [|x l IH]; simpl.
  - split; [exact Hl | exact I].
  - simpl in Hc. destruct (l ++ [w1]) as [|y r] eqn:E.
    + destruct l; discriminate.
    + destruct Hc as [H1 H2]. simpl. split; [exact H1|]. apply IH. exact H2.
Qed.

Lemma defaultInvariant_step text i ws :
  defaultInvariant text i ws -> i < len text ->
  defaultInvariant text (nextCursor text 100 (cutPoint text 600 i))
    (ws ++ [(i, cutPoint text 600 i)]).
Proof.
  intros [Hi [Hw [Hc [Hh Hl]]]] Hlt.
  assert (i + 501 <= cutPoint text 600 i <= i + 620) as Hcut.
  { destruct (Z.lt_ge_cases (i + 600) (len text)) as [H|H].
    - pose proof (cutPoint_range text 600 i Hi ltac:(lia) H). lia.
    - rewrite cutPoint_nominal by lia. lia. }
  assert (nextCursor text 100 (cutPoint text 600 i)
          = if cutPoint text 600 i <? len text then cutPoint text 600 i
            else cutPoint text 600 i - 100) as Hnext.
  { destruct (Z.ltb_spec (cutPoint text 600 i) (len text)).
    - now apply nextCursor_before_end.
    - rewrite nextCursor_at_end by lia. lia. }
  split; [rewrite Hnext; destruct (_ <? _); lia|].
  split; [apply Forall_app; split; [exact Hw|]; constructor; [|constructor];
          unfold defaultWindow; simpl; lia|].
  split.
  - destruct Hl as [[-> ->]|[l [w [-> ->]]]]; [exact I|].
    apply chained_snoc; [exact Hc|]. simpl. destruct (snd w <? len text); reflexivity.
  - split.
    + destruct Hl as [[-> ->]|[l [w [-> _]]]]; simpl.
      * intros w H. injection H as <-. reflexivity.
      * intros w0 H. apply Hh. destruct l; simpl in *; exact H.
    + right. exists ws, (i, cutPoint text 600 i). split; [reflexivity|].
      simpl. exact Hnext.
Qed.

Lemma defaultWindows text :
  exists ws,
    windowLoop (length text) text 600 100 0 [] = Some ws
    /\ Forall defaultWindow ws
    /\ chained (len text) 100 ws
    /\ (forall w, hd_error ws = Some w -> fst w = 0).
Proof.
  destruct (windowLoop_covers text (length text) 0 []) as [ws [Hws _]].
  - lia.
  - unfold len. lia.
  - intros p Hp. lia.
  - exists ws. split; [exact Hws|].
    destruct (windowLoop_rule text 600 100 (defaultInvariant text)
                (defaultInvariant_step text) (length text) 0 [] ws) as [i' [_ H]].
    + unfold defaultInvariant. split; [lia|]. split; [constructor|].
      split; [exact I|]. split; [discriminate|]. now left.
    + exact Hws.
    + destruct H as [_ [H1 [H2 [H3 _]]]]. auto.
Qed.

Lemma fragmentOf_shape text w :
  defaultWindow w ->
  len (fragmentOf text w) <= 620 /\ trimmed (fragmentOf text w).
Proof.
  intros [H0 H1]. unfold fragmentOf. split; [|apply trim_trimmed].
  pose proof (trim_len (substring text (fst w) (snd w))).
  rewrite substring_len in * by lia. pose proof (len_nonneg text). lia.
Qed.

(** ** Properties of [chunkText] *)

Lemma fragments_shape text :
  exists fragments,
    chunkTextDefault text = Some fragments
    /\ Forall (fun c => 10 < len c <= 620 /\ trimmed c) fragments.
Proof.
  destruct (defaultWindows text) as [ws [Hws [Hw _]]].
  exists (filter (fun c => 10 <? len c) (map (fragmentOf text) ws)). split.
  - unfold chunkTextDefault, chunkText.
    change (@nil jsstring) with (map (fragmentOf text) []).
    rewrite chunkLoop_windowLoop, Hws. reflexivity.
  - apply Forall_forall. intros c Hc. apply filter_In in Hc. destruct Hc as [Hin Hlen].
    apply in_map_iff in Hin. destruct Hin as [w [<- Hin]].
    rewrite Forall_forall in Hw.
    destruct (fragmentOf_shape text w (Hw w Hin)) as [H1 H2].
    apply Z.ltb_lt in Hlen. repeat split; try assumption; apply H2.
Qed.

(** X1. Every fragment [chunkText(text)] returns has more than 10 and at
    most 620 code units and neither starts nor ends with whitespace. *)
Theorem chunkText_fragment_shape (text : jsstring) :
  exists fragments,
    chunkTextDefault text = Some fragments
    /\ Forall (fun c => 10 < len c <= 620 /\ trimmed c) fragments.
Proof. exact (fragments_shape text). Qed.

Lemma blank_fragments text : blank text -> chunkTextDefault text = Some [].
Proof.
  intros Hb. destruct (defaultWindows text) as [ws [Hws _]].
  unfold chunkTextDefault, chunkText.
  change (@nil jsstring) with (map (fragmentOf text) []) at 1.
  rewrite chunkLoop_windowLoop, Hws. simpl. f_equal. clear Hws.
  induction ws as [|w ws IH]; simpl; [reflexivity|].
  unfold fragmentOf at 1. rewrite (trim_blank _ (blank_substring text _ _ Hb)).
  simpl. exact IH.
Qed.

(** X2. The windows [chunkText(text)] cuts: the first starts at 0, each
    spans between 501 and 620 positions, and each next one starts exactly
    where the previous one was cut as long as that cut is before the end of
    the text, and 100 positions earlier once a cut is at or past the end. *)
Theorem chunkText_windows_adjacent (text : jsstring) :
  exists ws,
    windowLoop (length text) text 600 100 0 [] = Some ws
    /\ Forall defaultWindow ws
    /\ chained (len text) 100 ws
    /\ (forall w, hd_error ws = Some w -> fst w = 0).
Proof. exact (defaultWindows text). Qed.

(** Every iteration moves the cursor forward when the size is at least
    100 and exceeds the overlap by at least 100. *)
Lemma cursor_progress_general text size overlap i :
  100 <= size -> overlap + 100 <= size -> 0 <= i -> i < len text ->
  i < nextCursor text overlap (cutPoint text size i).
Proof.
  intros Hs Ho Hi Hlt.
  destruct (Z.lt_ge_cases (i + size) (len text)) as [H|H].
  - pose proof (cutPoint_range text size i Hi Hs H) as Hc.
    destruct (Z.lt_ge_cases (cutPoint text size i) (len text)) as [L|L].
    + rewrite nextCursor_before_end by lia. lia.
    + rewrite nextCursor_at_end by lia. lia.
  - rewrite (cutPoint_nominal text size i) by lia.
    rewrite nextCursor_at_end by lia. lia.
Qed.

Lemma chunkLoop_terminates text size overlap :
  100 <= size -> overlap + 100 <= size ->
  forall fuel i chunks,
    0 <= i -> len text - i <= Z.of_nat fuel ->
    exists result, chunkLoop fuel text size overlap i chunks = Some result.
Proof.
  intros Hs Ho. induction fuel as [|fuel IH]; intros i chunks Hi Hf; simpl.
  - destruct (Z.ltb_spec i (len text)); [lia | eauto].
  - destruct (Z.ltb_spec i (len text)) as [Hlt|Hge]; [|eauto].
    pose proof (cursor_progress_general text size overlap i Hs Ho Hi Hlt).
    apply IH; lia.
Qed.

(** X3. [chunkText(text, size, overlap)] returns, within as many
    iterations as the text has code units, whenever the size is at least
    100 and exceeds the overlap by at least 100. *)
Theorem chunkText_returns (text : jsstring) (size overlap : Z) :
  100 <= size -> overlap + 100 <= size ->
  exists fragments, chunkText (length text) text size overlap = Some fragments.
Proof.
  intros Hs Ho. unfold chunkText.
  destruct (chunkLoop_terminates text size overlap Hs Ho (length text) 0 [])
    as [r Hr]; [lia | unfold len; lia |].
  rewrite Hr. simpl. eauto.
Qed.

(** A page-sized call. *)
Lemma chunkText_returns_witness :
  exists fragments,
    chunkText (length (ramp 700)) (ramp 700) 200 50 = Some fragments.
Proof. apply (chunkText_returns (ramp 700) 200 50); lia. Defined.

Lemma chunkLoop_stuck text size overlap :
  0 < len text <= size -> size <= overlap ->
  forall fuel chunks, chunkLoop fuel text size overlap 0 chunks = None.
Proof.
  intros Hlen Ho. induction fuel as [|fuel IH]; intros chunks; simpl.
  - destruct (Z.ltb_spec 0 (len text)); [reflexivity|lia].
  - destruct (Z.ltb_spec 0 (len text)); [|lia].
    rewrite (cutPoint_nominal text size 0) by lia.
    rewrite nextCursor_at_end by lia.
    replace (Z.max 0 (0 + size - overlap)) with 0 by lia. apply IH.
Qed.

(** X4. With an overlap that is not smaller than the size, the loop of
    [chunkText] never ends on a non-empty text of at most [size] code
    units: the cursor is put back to 0 after every push. *)
Theorem chunkText_never_returns (text : jsstring) (size overlap : Z) :
  0 < len text <= size -> size <= overlap ->
  forall fuel, chunkText fuel text size overlap = None.
Proof.
  intros Hlen Ho fuel. unfold chunkText.
  rewrite (chunkLoop_stuck text size overlap Hlen Ho). reflexivity.
Qed.

Lemma chunkText_never_returns_witness :
  chunkText 1000 (lit "Paris is the capital of France.") 100 100 = None.
Proof.
  apply (chunkText_never_returns (lit "Paris is the capital of France.") 100 100).
  - vm_compute. split; congruence.
  - lia.
Defined.

(** X5. A text made of whitespace only, of any length, gives no
    fragment. *)
Theorem chunkText_blank (text : jsstring) :
  blank text -> chunkTextDefault text = Some [].
Proof. exact (blank_fragments text). Qed.

Lemma chunkText_blank_witness :
  chunkTextDefault (repeat 32%N 700) = Some [].
Proof.
  apply (chunkText_blank (repeat 32%N 700)).
  unfold blank. apply Forall_forall. intros c Hc.
  apply repeat_spec in Hc. subst c. reflexivity.
Defined.

End ChunkerExtras.

(* ===================================================================== *)
(** * SimilarityRanker: symmetry, NaN components, the top 3 *)
(* ===================================================================== *)

Module SimilarityExtras.

Import Similarity FloatFacts SimilarityProofs.
Local Open Scope nat_scope.

(** ** Binary64 multiplication *)

Lemma SFmul_comm x y : SFmul prec emax x y = SFmul prec emax y x.
Proof.
  destruct x as [sx|sx| |sx mx ex], y as [sy|sy| |sy my ey]; simpl;
    try reflexivity; try (rewrite xorb_comm; reflexivity).
  rewrite xorb_comm, Pos.mul_comm, Z.add_comm. reflexivity.
Qed.

Lemma mul_comm (x y : float) : (x * y = y * x)%float.
Proof.
  apply Prim2SF_inj. rewrite !mul_spec. apply SFmul_comm.
Qed.

Lemma mul_nan_l (y : float) : (nan * y = nan)%float.
Proof. rewrite mul_comm. apply mul_nan_r. Qed.

(** ** Symmetry *)

Lemma cosineStep_swap v1 v2 l :
  forall dot m1 m2 dot' m1' m2',
    fold_left (cosineStep v1 v2) l (dot, m1, m2) = (dot', m1', m2') ->
    fold_left (cosineStep v2 v1) l (dot, m2, m1) = (dot', m2', m1').
Proof.
  induction l as [|i l IH]; intros dot m1 m2 dot' m1' m2' H; simpl in *.
  - congruence.
  - rewrite (mul_comm (elem v2 i) (elem v1 i)). now apply IH.
Qed.

(** X6. [cosineSimilarity] is symmetric on vectors of the same length:
    exchanging the arguments gives the same binary64 value, NaN included. *)
Theorem cosineSimilarity_symmetric (v1 v2 : vector) :
  length v1 = length v2 -> cosineSimilarity v1 v2 = cosineSimilarity v2 v1.
Proof.
  intros Hlen. unfold cosineSimilarity. rewrite <- Hlen.
  destruct (fold_left (cosineStep v1 v2) (seq 0 (length v1)) (0, 0, 0)%float)
    as [[dot m1] m2] eqn:E.
  rewrite (cosineStep_swap v1 v2 _ _ _ _ _ _ _ E).
  rewrite (mul_comm (sqrt m2) (sqrt m1)). reflexivity.
Qed.

Lemma cosineSimilarity_symmetric_witness :
  (cosineSimilarity [3; 4] [1; 0] = cosineSimilarity [1; 0] [3; 4])%float.
Proof. apply (cosineSimilarity_symmetric [3; 4]%float [1; 0]%float). reflexivity. Defined.

(** ** NaN components *)

Lemma cosineSimilarity_nan_product v1 v2 i :
  i < length v1 -> (elem v1 i * elem v2 i = nan)%float ->
  cosineSimilarity v1 v2 = nan.
Proof.
  intros Hi Hnan. unfold cosineSimilarity.
  replace (length v1) with (i + S (length v1 - i - 1)) by lia.
  rewrite seq_app, fold_left_app. simpl seq. simpl fold_left.
  destruct (fold_left (cosineStep v1 v2) (seq 0 i) (0, 0, 0)%float)
    as [[dot m1] m2].
  unfold cosineStep at 2. rewrite Hnan, add_nan_r.
  match goal with
  | |- context [fold_left _ ?l (nan, ?a, ?b)] =>
      destruct (cosineStep_nan v1 v2 l a b) as [m1' [m2' ->]]
  end.
  apply div_nan_l.
Qed.

(** X7. A NaN component poisons the score: if the first vector holds a
    NaN, or the second holds one at a position the first vector has, the
    similarity is NaN. *)
Theorem cosineSimilarity_nan_component (v1 v2 : vector) (i : nat) :
  i < length v1 ->
  nth_error v1 i = Some nan \/ nth_error v2 i = Some nan ->
  cosineSimilarity v1 v2 = nan.
Proof.
  intros Hi H. apply (cosineSimilarity_nan_product v1 v2 i Hi). unfold elem.
  destruct H as [H|H]; rewrite (nth_error_nth _ _ _ H).
  - apply mul_nan_l.
  - apply mul_nan_r.
Qed.

Lemma cosineSimilarity_nan_component_witness :
  (cosineSimilarity [1; nan] [1; 0] = nan)%float.
Proof.
  apply (cosineSimilarity_nan_component [1; nan]%float [1; 0]%float 1).
  - simpl. lia.
  - left. reflexivity.
Defined.

(** ** The entries of the top 3 *)

Lemma scoresFrom_indices q embs k :
  map idx (scoresFrom q embs k) = seq k (length embs).
Proof.
  revert k. induction embs as [|e embs IH]; intros k; simpl; [reflexivity|].
  now rewrite IH.
Qed.

Lemma NoDup_firstn {A} n (l : list A) : NoDup l -> NoDup (firstn n l).
Proof.
  intros H. rewrite <- (firstn_skipn n l) in H.
  now apply NoDup_app_remove_r in H.
Qed.

Lemma In_firstn {A} n (l : list A) x : In x (firstn n l) -> In x l.
Proof.
  intros H. rewrite <- (firstn_skipn n l). apply in_or_app. now left.
Qed.

(** X8. Whatever the scores, NaN included, the top 3 hold at most three
    entries, their indices are pairwise distinct, and each index is the
    position of a stored embedding whose similarity to the query is the
    score of the entry. *)
Theorem top3_entries (q : vector) (embs : list vector) :
  length (top3 q embs) <= 3
  /\ NoDup (map idx (top3 q embs))
  /\ Forall (fun s => exists e, nth_error embs (idx s) = Some e
                                /\ score s = cosineSimilarity q e)
       (top3 q embs).
Proof.
  unfold top3, rank.
  pose proof (sort_perm byScoreDesc (scoresFrom q embs 0)) as P.
  split; [apply firstn_le_length|]. split.
  - rewrite <- firstn_map. apply NoDup_firstn.
    apply (Permutation_NoDup (Permutation_map idx (Permutation_sym P))).
    rewrite scoresFrom_indices. apply seq_NoDup.
  - apply Forall_forall. intros s Hs. apply In_firstn in Hs.
    apply (Permutation_in _ P) in Hs.
    pose proof (scoresFrom_scored q embs 0) as Hsc. rewrite Forall_forall in Hsc.
    destruct (Hsc s Hs) as [e [_ [H1 H2]]]. exists e.
    rewrite Nat.sub_0_r in H1. auto.
Qed.

End SimilarityExtras.

(* ===================================================================== *)
(** * IndexingPipeline: what the bisections keep, and the PDF handler *)
(* ===================================================================== *)

Module IndexingExtras.

Import Similarity Indexing Pipeline TextProps JsStringFacts TrimFacts IndexingProofs.

Lemma truthy_nonEmpty s : truthy s = true -> nonEmpty s.
Proof. destruct s; [discriminate|]. intros _. discriminate. Qed.

(** The two pieces of [ensureChunkSize] hold the non-blank units of the
    text, whatever the split index. *)
Lemma pieces_nonBlank text :
  nonBlank (leftOf text) ++ nonBlank (rightOf text) = nonBlank text.
Proof.
  unfold leftOf, rightOf. rewrite !nonBlank_trim, <- nonBlank_app.
  now rewrite substring_split.
Qed.

Lemma halves_nonBlank text :
  nonBlank (leftHalf text) ++ nonBlank (rightHalf text) = nonBlank text.
Proof.
  unfold leftHalf, rightHalf. rewrite !nonBlank_trim, <- nonBlank_app.
  now rewrite substring_split.
Qed.

Lemma pieces_length text :
  (length (leftOf text) <= length text)%nat
  /\ (length (rightOf text) <= length text)%nat.
Proof.
  unfold leftOf, rightOf, substring_from.
  pose proof (trim_len (substring text 0 (splitIdx text))) as H1.
  pose proof (trim_len (substring text (splitIdx text) (len text))) as H2.
  pose proof (substring_length text 0 (splitIdx text)) as E1.
  pose proof (substring_length text (splitIdx text) (len text)) as E2.
  pose proof (len_nonneg text).
  pose proof (clamp_range (len text) 0 ltac:(lia)).
  pose proof (clamp_range (len text) (splitIdx text) ltac:(lia)).
  pose proof (clamp_range (len text) (len text) ltac:(lia)).
  unfold len in *. lia.
Qed.

Section TokenSize.

Variable tokenize : jsstring -> list Z.

Lemma ensureChunkSize_pieces :
  forall fuel text pieces,
    ensureChunkSize tokenize fuel text = Some pieces ->
    nonBlank (concat pieces) = nonBlank text
    /\ (nonEmpty text -> Forall nonEmpty pieces)
    /\ Forall (fun p => (length p <= length text)%nat) pieces.
Proof.
  induction fuel as [|fuel IH]; intros text pieces H; [discriminate|].
  simpl in H. destruct (tokens tokenize text <=? 300).
  - injection H as <-. simpl. rewrite app_nil_r.
    repeat split; [intros Hne|]; constructor; auto.
  - destruct (if truthy (leftOf text)
              then ensureChunkSize tokenize fuel (leftOf text) else Some [])
      as [ls|] eqn:El; [|discriminate].
    destruct (if truthy (rightOf text)
              then ensureChunkSize tokenize fuel (rightOf text) else Some [])
      as [rs|] eqn:Er; [|discriminate].
    injection H as <-.
    destruct (pieces_length text) as [Ll Lr].
    assert (nonBlank (concat ls) = nonBlank (leftOf text)
            /\ Forall nonEmpty ls
            /\ Forall (fun p => (length p <= length text)%nat) ls) as [A1 [A2 A3]].
    { destruct (truthy (leftOf text)) eqn:T.
      - destruct (IH _ _ El) as [B1 [B2 B3]].
        split; [exact B1|]. split; [apply B2, truthy_nonEmpty, T|].
        eapply Forall_impl; [|exact B3]. simpl. intros; lia.
      - injection El as <-. apply truthy_false_nil in T. rewrite T.
        repeat split; constructor. }
    assert (nonBlank (concat rs) = nonBlank (rightOf text)
            /\ Forall nonEmpty rs
            /\ Forall (fun p => (length p <= length text)%nat) rs) as [C1 [C2 C3]].
    { destruct (truthy (rightOf text)) eqn:T.
      - destruct (IH _ _ Er) as [B1 [B2 B3]].
        split; [exact B1|]. split; [apply B2, truthy_nonEmpty, T|].
        eapply Forall_impl; [|exact B3]. simpl. intros; lia.
      - injection Er as <-. apply truthy_false_nil in T. rewrite T.
        repeat split; constructor. }
    rewrite concat_app, nonBlank_app, A1, C1, pieces_nonBlank.
    repeat split; [intros _|]; apply Forall_app; split; assumption.
Qed.

(** X9. [ensureChunkSize] neither loses nor reorders a unit that is not
    whitespace: the non-blank units of the pieces, read in order, are those
    of the text. A non-empty text never gives an empty piece, and no piece
    is longer than the text. *)
Theorem ensureChunkSize_keeps_text (fuel : nat) (text : jsstring)
    (pieces : list jsstring) :
  ensureChunkSize tokenize fuel text = Some pieces ->
  nonBlank (concat pieces) = nonBlank text
  /\ (nonEmpty text -> Forall nonEmpty pieces)
  /\ Forall (fun p => (length p <= length text)%nat) pieces.
Proof. apply ensureChunkSize_pieces. Qed.

End TokenSize.

(** The tokenizer with one token for each unit, on 301 units: the text
    is cut once. *)
Lemma ensureChunkSize_keeps_text_witness :
  exists pieces,
    ensureChunkSize perUnit 2 (Chunker.ramp 301) = Some pieces
    /\ length pieces = 2%nat
    /\ nonBlank (concat pieces) = nonBlank (Chunker.ramp 301).
Proof.
  destruct (ensureChunkSize perUnit 2 (Chunker.ramp 301)) as [pieces|] eqn:E.
  - exists pieces. split; [reflexivity|]. split.
    + vm_compute in E. injection E as <-. reflexivity.
    + apply (ensureChunkSize_keeps_text perUnit 2 (Chunker.ramp 301) pieces E).
  - vm_compute in E. discriminate.
Defined.

(** ** [processChunkSafe] *)

Section Embedding.

Variable Runtime : Type.
Variable embeddings : Runtime -> jsstring -> Runtime * option vector.

(** The recursion is never deeper than the length of the text plus one,
    whatever the runtime. *)
Lemma processChunkSafe_total :
  forall fuel (acc : Acc Runtime) text,
    (length text < fuel)%nat ->
    exists acc', processChunkSafe embeddings fuel acc text = Some acc'.
Proof.
  induction fuel as [|fuel IH]; intros acc text Hf; [lia|].
  cbn [processChunkSafe].
  destruct (embeddings (runtime acc) text) as [rt [output|]]; [eauto|].
  destruct (Z.ltb_spec (len text) 10) as [Hs|Hl]; [eauto|].
  destruct (half_lengths text Hl) as [H1 H2]. unfold len in H1, H2.
  set (acc0 := {| runtime := rt; vectors := vectors acc; safeChunks := safeChunks acc |}).
  assert (exists a,
             (if truthy (leftHalf text)
              then processChunkSafe embeddings fuel acc0 (leftHalf text)
              else Some acc0) = Some a) as [a Ha].
  { destruct (truthy (leftHalf text)); [apply IH; lia | eauto]. }
  rewrite Ha. destruct (truthy (rightHalf text)); [apply IH; lia | eauto].
Qed.

Lemma added_nothing (acc : Acc Runtime) rt :
  added acc {| runtime := rt; vectors := vectors acc; safeChunks := safeChunks acc |}
    [] [].
Proof. unfold added. simpl. rewrite !app_nil_r. auto. Qed.

Lemma added_trans (a b c : Acc Runtime) vs cs vs' cs' :
  added a b vs cs -> added b c vs' cs' -> added a c (vs ++ vs') (cs ++ cs').
Proof.
  intros [A1 [A2 A3]] [B1 [B2 B3]]. unfold added.
  rewrite B1, B2, A1, A2, <- !app_assoc, !length_app. auto.
Qed.

Lemma processChunkSafe_adds :
  forall fuel (acc : Acc Runtime) text acc',
    processChunkSafe embeddings fuel acc text = Some acc' ->
    exists vs cs,
      added acc acc' vs cs
      /\ (nonEmpty text -> Forall nonEmpty cs)
      /\ ((forall rt t, nonEmpty t -> len t < 10 ->
             snd (embeddings rt t) <> None) ->
          nonBlank (concat cs) = nonBlank text).
Proof.
  induction fuel as [|fuel IH]; intros acc text acc' H; [discriminate|].
  cbn [processChunkSafe] in H.
  destruct (embeddings (runtime acc) text) as [rt [output|]] eqn:E.
  - injection H as <-. exists [output], [text].
    split; [unfold added; simpl; auto|].
    split; [intros Hne; constructor; [exact Hne|constructor]|].
    intros _. simpl. now rewrite app_nil_r.
  - destruct (Z.ltb_spec (len text) 10) as [Hs|Hl].
    + injection H as <-. exists [], []. split; [apply added_nothing|].
      split; [constructor|]. intros Hacc. simpl.
      destruct text as [|c t]; [reflexivity|].
      exfalso. apply (Hacc (runtime acc) (c :: t)); [discriminate|exact Hs|].
      rewrite E. reflexivity.
    + set (acc0 := {| runtime := rt; vectors := vectors acc;
                      safeChunks := safeChunks acc |}) in H.
      assert (exists a vs cs,
                 (if truthy (leftHalf text)
                  then processChunkSafe embeddings fuel acc0 (leftHalf text)
                  else Some acc0) = Some a
                 /\ added acc a vs cs /\ Forall nonEmpty cs
                 /\ ((forall rt t, nonEmpty t -> len t < 10 ->
                        snd (embeddings rt t) <> None) ->
                     nonBlank (concat cs) = nonBlank (leftHalf text)))
        as [a [vs [cs [Ha [Hadd [Hne Hnb]]]]]].
      { destruct (truthy (leftHalf text)) eqn:T.
        - destruct (processChunkSafe embeddings fuel acc0 (leftHalf text))
            as [a|] eqn:El; [|discriminate].
          destruct (IH _ _ _ El) as [vs [cs [A1 [A2 A3]]]].
          exists a, vs, cs. split; [reflexivity|].
          split; [exact (added_trans _ _ _ _ _ _ _ (added_nothing acc rt) A1)|].
          split; [apply A2, truthy_nonEmpty, T | exact A3].
        - exists acc0, [], []. split; [reflexivity|].
          split; [apply added_nothing|]. split; [constructor|].
          intros _. apply truthy_false_nil in T. rewrite T. reflexivity. }
      rewrite Ha in H.
      destruct (truthy (rightHalf text)) eqn:T.
      * destruct (IH _ _ _ H) as [vs' [cs' [B1 [B2 B3]]]].
        exists (vs ++ vs'), (cs ++ cs').
        split; [exact (added_trans _ _ _ _ _ _ _ Hadd B1)|].
        split; [intros _; apply Forall_app; split;
                [exact Hne | apply B2, truthy_nonEmpty, T]|].
        intros Hacc. rewrite concat_app, nonBlank_app, (Hnb Hacc), (B3 Hacc).
        apply halves_nonBlank.
      * injection H as <-. exists vs, cs. split; [exact Hadd|].
        split; [intros _; exact Hne|].
        intros Hacc. rewrite (Hnb Hacc), <- (halves_nonBlank text).
        apply truthy_false_nil in T. rewrite T. simpl. now rewrite app_nil_r.
Qed.

(** X10. [processChunkSafe] keeps the arrays [embeddings] and
    [safeChunks] paired: it leaves their entries in place and adds as many
    vectors as chunks, and a non-empty text never adds an empty chunk. *)
Theorem processChunkSafe_keeps_pairs (fuel : nat) (acc acc' : Acc Runtime)
    (text : jsstring) :
  processChunkSafe embeddings fuel acc text = Some acc' ->
  exists vs cs,
    vectors acc' = vectors acc ++ vs
    /\ safeChunks acc' = safeChunks acc ++ cs
    /\ length vs = length cs
    /\ (nonEmpty text -> Forall nonEmpty cs).
Proof.
  intros H. destruct (processChunkSafe_adds fuel acc text acc' H)
    as [vs [cs [[H1 [H2 H3]] [H4 _]]]].
  exists vs, cs. auto.
Qed.

(** X11. When the runtime rejects no non-empty text shorter than 10
    units, [processChunkSafe] drops nothing: the non-blank units of the
    chunks it adds, read in order, are those of the text. *)
Theorem processChunkSafe_keeps_text (fuel : nat) (acc acc' : Acc Runtime)
    (text : jsstring) :
  (forall rt t, nonEmpty t -> len t < 10 -> snd (embeddings rt t) <> None) ->
  processChunkSafe embeddings fuel acc text = Some acc' ->
  exists cs,
    safeChunks acc' = safeChunks acc ++ cs
    /\ nonBlank (concat cs) = nonBlank text.
Proof.
  intros Hacc H. destruct (processChunkSafe_adds fuel acc text acc' H)
    as [vs [cs [[_ [H2 _]] [_ H5]]]].
  exists cs. auto.
Qed.

End Embedding.

Lemma processChunkSafe_keeps_pairs_witness :
  exists vs cs,
    vectors tenUnitsAcc = vectors freshAcc ++ vs
    /\ safeChunks tenUnitsAcc = safeChunks freshAcc ++ cs
    /\ length vs = length cs
    /\ (nonEmpty (lit "abcdefghij") -> Forall nonEmpty cs).
Proof.
  apply (processChunkSafe_keeps_pairs _ (recording shortOnly) 2 freshAcc tenUnitsAcc
           (lit "abcdefghij")).
  vm_compute. reflexivity.
Defined.

Lemma shortOnly_accepts (rt : unit * list jsstring) (t : jsstring) :
  nonEmpty t -> len t < 10 -> snd (recording shortOnly rt t) <> None.
Proof.
  intros _ H. unfold recording, shortOnly. cbn [fst snd].
  apply Z.ltb_lt in H. rewrite H. discriminate.
Qed.

Lemma processChunkSafe_keeps_text_witness :
  exists cs,
    safeChunks tenUnitsAcc = safeChunks freshAcc ++ cs
    /\ nonBlank (concat cs) = nonBlank (lit "abcdefghij").
Proof.
  apply (processChunkSafe_keeps_text _ (recording shortOnly) 2 freshAcc tenUnitsAcc
           (lit "abcdefghij") shortOnly_accepts).
  vm_compute. reflexivity.
Defined.

End IndexingExtras.

(* ===================================================================== *)
(** * IndexingPipeline: the PDF handler end to end *)
(* ===================================================================== *)

Module PipelineProofs.

Import Similarity Indexing ModelSwitch Chunker Pipeline.
Import TextProps JsStringFacts TrimFacts IndexingProofs ChunkerExtras IndexingExtras.

Lemma fullTextOf_from pages start :
  fold_left (fun fullText items => fullText ++ pageText items) pages start
  = start ++ concat (map pageText pages).
Proof.
  revert start. induction pages as [|items pages IH]; intros start; simpl.
  - now rewrite app_nil_r.
  - rewrite IH, <- app_assoc. reflexivity.
Qed.

Lemma blank_app s t : blank s -> blank t -> blank (s ++ t).
Proof. unfold blank. intros Hs Ht. apply Forall_app. auto. Qed.

Lemma blank_join items : Forall blank items -> blank (join [32%N] items).
Proof.
  induction 1 as [|s items Hs Hi IH]; simpl; [constructor|].
  destruct items as [|t items]; [exact Hs|].
  apply blank_app; [exact Hs|]. change (blank ([32%N] ++ join [32%N] (t :: items))).
  apply blank_app; [|exact IH].
  constructor; [reflexivity|constructor].
Qed.

Lemma blank_fullText pages : Forall (Forall blank) pages -> blank (fullTextOf pages).
Proof.
  intros H. unfold fullTextOf. rewrite fullTextOf_from. simpl.
  induction H as [|items pages Hi Hp IH]; simpl; [constructor|].
  apply blank_app; [|exact IH]. unfold pageText.
  apply blank_app; [now apply blank_join|].
  constructor; [reflexivity|constructor].
Qed.

Section Handler.

Variable tokenize : jsstring -> list Z.
Variable Runtime : Type.
Variable setEmbeddingMode : Runtime -> Runtime.
Variable embeddings : Runtime -> jsstring -> Runtime * option vector.

Lemma embedAll_adds :
  forall fuel texts (acc acc' : Acc Runtime),
    embedAll embeddings fuel acc texts = Some acc' ->
    exists vs cs,
      added acc acc' vs cs /\ (Forall nonEmpty texts -> Forall nonEmpty cs).
Proof.
  intros fuel. induction texts as [|c rest IH]; intros acc acc' H; simpl in H.
  - injection H as <-. exists [], []. split; [|intros _; constructor].
    unfold added. rewrite !app_nil_r. auto.
  - destruct (processChunkSafe embeddings fuel acc c) as [a|] eqn:E; [|discriminate].
    destruct (processChunkSafe_adds Runtime embeddings fuel acc c a E)
      as [vs [cs [A1 [A2 _]]]].
    destruct (IH a acc' H) as [vs' [cs' [B1 B2]]].
    exists (vs ++ vs'), (cs ++ cs').
    split; [exact (added_trans Runtime _ _ _ _ _ _ _ A1 B1)|].
    intros Hne. inversion Hne; subst. apply Forall_app. auto.
Qed.

Lemma embedAll_total :
  forall fuel texts (acc : Acc Runtime),
    Forall (fun c => (length c < fuel)%nat) texts ->
    exists acc', embedAll embeddings fuel acc texts = Some acc'.
Proof.
  intros fuel. induction texts as [|c rest IH]; intros acc H; simpl; [eauto|].
  inversion H as [|? ? Hc Hr]; subst.
  destruct (processChunkSafe_total Runtime embeddings fuel acc c Hc) as [a ->].
  now apply IH.
Qed.

Lemma ensureAll_total :
  (forall t, 300 < tokens tokenize t -> 100 <= len t) ->
  forall fuel texts,
    Forall (fun c => (length c < fuel)%nat) texts ->
    exists pieces,
      ensureAll tokenize fuel texts = Some pieces
      /\ Forall (fun p => (length p < fuel)%nat) pieces.
Proof.
  intros Hreal fuel. induction texts as [|c rest IH]; intros H; simpl.
  - exists []. split; [reflexivity|constructor].
  - inversion H as [|? ? Hc Hr]; subst.
    destruct (ensureChunkSize_enough_fuel tokenize Hreal fuel c Hc) as [ps [E _]].
    destruct (IH Hr) as [qs [F Hq]]. rewrite E, F.
    exists (ps ++ qs). split; [reflexivity|]. apply Forall_app. split; [|exact Hq].
    destruct (ensureChunkSize_pieces tokenize fuel c ps E) as [_ [_ L]].
    eapply Forall_impl; [|exact L]. simpl. intros; lia.
Qed.

Lemma filter_nonEmpty (l : list jsstring) :
  Forall nonEmpty (filter (fun c => 0 <? len c) l).
Proof.
  apply Forall_forall. intros c Hc. apply filter_In in Hc. destruct Hc as [_ H].
  apply Z.ltb_lt in H. intros ->. unfold len in H. simpl in H. lia.
Qed.

(** X12. What the handler does to the index. Without a file or without
    a loaded runtime nothing changes. When the extraction fails the index
    is kept and the warning line reports the error. When it succeeds, the
    index is replaced as a whole: it carries the name of the file and the
    selected model, as many embeddings as chunks, and no empty chunk; the
    warning line is left as it was. *)
Theorem onPdfChange_index (fuel : nat)
    (file : option (jsstring * (jsstring + list (list jsstring))))
    (wllama : bool) (selected : jsstring) (st st' : Indexed Runtime) :
  onPdfChange tokenize setEmbeddingMode embeddings fuel file wllama selected st
  = Some st' ->
  (file = None \/ wllama = false -> st' = st)
  /\ (forall fileName message,
        file = Some (fileName, inl message) -> wllama = true ->
        indexDoc st' = indexDoc st
        /\ indexWarn st' = lit "PDF Error: " ++ message)
  /\ (forall fileName pages,
        file = Some (fileName, inr pages) -> wllama = true ->
        name (indexDoc st') = fileName
        /\ modelUrl (indexDoc st') = selected
        /\ paired (indexDoc st')
        /\ Forall nonEmpty (chunks (indexDoc st'))
        /\ indexWarn st' = indexWarn st).
Proof.
  intros H. unfold onPdfChange in H. split; [|split].
  - intros [-> | ->].
    + now injection H as <-.
    + destruct file as [[fileName extraction]|]; simpl in H; now injection H as <-.
  - intros fileName message -> ->. simpl in H. injection H as <-. auto.
  - intros fileName pages -> ->. simpl in H.
    destruct (chunkTextDefault (fullTextOf pages)) as [texts|]; [|discriminate].
    destruct (ensureAll tokenize fuel texts) as [validated|]; [|discriminate].
    destruct (embedAll embeddings fuel _ _) as [acc|] eqn:E; [|discriminate].
    injection H as <-. simpl.
    destruct (embedAll_adds _ _ _ _ E) as [vs [cs [[A1 [A2 A3]] A4]]].
    simpl in A1, A2. unfold paired. simpl. rewrite A1, A2.
    repeat split; auto. apply A4, filter_nonEmpty.
Qed.

(** X13. If the tokenizer reports more than 300 tokens only for texts
    of at least 100 units, the handler returns for every file, every page
    content and every runtime: a recursion depth of 621 is never
    exhausted. *)
Theorem onPdfChange_returns
    (file : option (jsstring * (jsstring + list (list jsstring))))
    (wllama : bool) (selected : jsstring) (st : Indexed Runtime) :
  (forall t, 300 < tokens tokenize t -> 100 <= len t) ->
  exists st',
    onPdfChange tokenize setEmbeddingMode embeddings 621 file wllama selected st
    = Some st'.
Proof.
  intros Hreal. unfold onPdfChange.
  destruct file as [[fileName [message|pages]]|]; [| |eauto];
    destruct (negb wllama); eauto.
  destruct (fragments_shape (fullTextOf pages)) as [texts [-> Hshape]].
  assert (Forall (fun c => (length c < 621)%nat) texts) as Hlen.
  { eapply Forall_impl; [|exact Hshape]. simpl. intros c [[_ H] _].
    unfold len in H. lia. }
  destruct (ensureAll_total Hreal 621 texts Hlen) as [validated [-> Hv]].
  assert (Forall (fun c => (length c < 621)%nat)
            (filter (fun c => 0 <? len c) validated)) as Hf.
  { apply Forall_forall. intros c Hc. apply filter_In in Hc.
    rewrite Forall_forall in Hv. apply Hv, Hc. }
  destruct (embedAll_total 621 _
              {| runtime := setEmbeddingMode (indexRuntime st);
                 vectors := []; safeChunks := [] |} Hf) as [acc ->].
  eauto.
Qed.

(** X14. A file whose pages hold whitespace only, or that has no page,
    gives an index without chunks and without embeddings, at any recursion
    depth, and the runtime is not asked for any embedding. *)
Theorem onPdfChange_blank (fuel : nat) (fileName : jsstring)
    (pages : list (list jsstring)) (selected : jsstring) (st : Indexed Runtime) :
  Forall (Forall blank) pages ->
  onPdfChange tokenize setEmbeddingMode embeddings fuel
    (Some (fileName, inr pages)) true selected st
  = Some {| indexRuntime := setEmbeddingMode (indexRuntime st);
            indexDoc := {| name := fileName; chunks := [];
                           ModelSwitch.embeddings := [];
                           modelUrl := selected |};
            indexWarn := indexWarn st |}.
Proof.
  intros H. unfold onPdfChange. simpl.
  rewrite (blank_fragments _ (blank_fullText pages H)). reflexivity.
Qed.

End Handler.

Lemma onPdfChange_index_witness :
  exists st',
    onPdfChange perUnit keepMode acceptAll 50
      (Some (lit "report.pdf", inr twoPages)) true tinyllama noDocument = Some st'
    /\ name (indexDoc st') = lit "report.pdf"
    /\ modelUrl (indexDoc st') = tinyllama
    /\ paired (indexDoc st')
    /\ length (chunks (indexDoc st')) = 1%nat.
Proof.
  destruct (onPdfChange perUnit keepMode acceptAll 50
              (Some (lit "report.pdf", inr twoPages)) true tinyllama noDocument)
    as [st'|] eqn:E.
  - exists st'. split; [reflexivity|].
    destruct (onPdfChange_index perUnit unit keepMode acceptAll 50 _ true tinyllama
                noDocument st' E) as [_ [_ H]].
    destruct (H (lit "report.pdf") twoPages eq_refl eq_refl) as [H1 [H2 [H3 _]]].
    repeat split; try assumption.
    vm_compute in E. injection E as <-. reflexivity.
  - vm_compute in E. discriminate.
Defined.

Lemma onPdfChange_returns_witness :
  exists st',
    onPdfChange perUnit keepMode acceptAll 621
      (Some (lit "report.pdf", inr twoPages)) true tinyllama noDocument = Some st'.
Proof.
  apply (onPdfChange_returns perUnit unit keepMode acceptAll). exact perUnit_long.
Defined.

Lemma onPdfChange_blank_witness :
  onPdfChange perUnit keepMode acceptAll 0
    (Some (lit "blank.pdf", inr [[lit "  "; lit " "]; []])) true tinyllama noDocument
  = Some {| indexRuntime := tt;
            indexDoc := {| name := lit "blank.pdf"; chunks := [];
                           ModelSwitch.embeddings := [];
                           modelUrl := tinyllama |};
            indexWarn := [] |}.
Proof.
  apply (onPdfChange_blank perUnit unit keepMode acceptAll 0 (lit "blank.pdf")
           [[lit "  "; lit " "]; []] tinyllama noDocument).
  repeat constructor.
Defined.

End PipelineProofs.

(* ===================================================================== *)
(** * ChatOrchestrator: the stream, the history, the turn without context *)
(* ===================================================================== *)

Module ChatExtras.

Import Similarity ModelSwitch Chat Handlers TextProps JsStringFacts TrimFacts.

Section Turn.

Variable World : Type.
Variable setOptions : World -> bool -> World.
Variable embed : World -> jsstring -> World * (jsstring + vector).
Variable completeStream :
  World -> list ChatMessage -> CompletionOptions -> World * StreamOutcome.
Variable completeText :
  World -> list ChatMessage -> CompletionOptions -> World * TextOutcome.
Variable aborted : World -> bool.
Variable Decoder : Type.
Variable decoder0 : Decoder.
Variable decode : Decoder -> list N -> Decoder * jsstring.

(** ** The stream *)

Lemma consumeChunk_grows d acc chunk :
  let '(_, acc', shown') := consumeChunk decode (d, acc, acc) chunk in
  shown' = acc' /\ len acc <= len acc'.
Proof.
  unfold consumeChunk.
  assert (forall t : option jsstring,
             len acc <= len (match t with
                             | Some t => if len acc <? len t then t else acc
                             | None => acc
                             end)) as Htext.
  { intros [t|]; [|lia]. destruct (Z.ltb_spec (len acc) (len t)); lia. }
  assert (forall acc' : jsstring,
             len acc <= len acc' ->
             (if 0 <? len acc' then acc' else acc) = acc' /\ len acc <= len acc')
    as Hshown.
  { intros acc' H. split; [|exact H].
    destruct (Z.ltb_spec 0 (len acc')); [reflexivity|].
    pose proof (len_nonneg acc). pose proof (len_nonneg acc').
    rewrite (len_zero_nil acc) by lia. rewrite (len_zero_nil acc') by lia.
    reflexivity. }
  destruct (piece chunk) as [bytes|].
  - destruct (0 <? Z.of_nat (length bytes)).
    + destruct (decode d bytes) as [d1 s]. apply Hshown.
      rewrite len_app. pose proof (len_nonneg s). lia.
    + apply Hshown, Htext.
  - apply Hshown, Htext.
Qed.

Lemma consume_all_grows stream :
  forall d acc d' acc' shown',
    fold_left (consumeChunk decode) stream (d, acc, acc) = (d', acc', shown') ->
    shown' = acc' /\ len acc <= len acc'.
Proof.
  induction stream as [|chunk stream IH]; intros d acc d' acc' shown' H.
  - simpl in H. injection H as <- <- <-. split; [reflexivity|lia].
  - cbn [fold_left] in H.
    pose proof (consumeChunk_grows d acc chunk) as Hc.
    destruct (consumeChunk decode (d, acc, acc) chunk) as [[d1 acc1] shown1].
    destruct Hc as [-> Hc].
    destruct (IH _ _ _ _ _ H) as [-> Hle]. split; [reflexivity|lia].
Qed.

(** X15. While a stream is consumed the accumulated text never gets
    shorter, whatever the chunks carry and whatever the decoder returns, and
    the assistant bubble shows exactly the accumulated text. *)
Theorem stream_never_shrinks (consumed next : list StreamChunk) :
  len (accumulated decoder0 decode consumed)
  <= len (accumulated decoder0 decode (consumed ++ next))
  /\ snd (fold_left (consumeChunk decode) consumed (decoder0, [], []))
     = accumulated decoder0 decode consumed.
Proof.
  unfold accumulated. rewrite fold_left_app.
  destruct (fold_left (consumeChunk decode) consumed (decoder0, [], []))
    as [[d1 acc1] shown1] eqn:E1.
  destruct (consume_all_grows consumed _ _ _ _ _ E1) as [-> _].
  destruct (fold_left (consumeChunk decode) next (d1, acc1, acc1))
    as [[d2 acc2] shown2] eqn:E2.
  destruct (consume_all_grows next _ _ _ _ _ E2) as [_ H2]. simpl. auto.
Qed.

(** ** The history *)

Lemma retrieval_messages doc (s : Session World) userText :
  messages (fst (retrieval setOptions embed doc s userText)) = messages s.
Proof.
  unfold retrieval.
  destruct (0 <? Z.of_nat (length (chunks doc))); [|reflexivity].
  destruct (Z.of_nat (length (embeddings doc)) =? 0); [reflexivity|].
  destruct (embed (setOptions (world s) true) userText) as [w [message|q]];
    reflexivity.
Qed.

Lemma onError_messages (s : Session World) w acc message :
  messages (onError aborted s w acc message) = messages s
  \/ messages (onError aborted s w acc message)
     = messages s ++ [{| role := assistant; content := acc |}].
Proof. unfold onError. destruct (aborted w); simpl; auto. Qed.

Lemma generation_messages (s : Session World) :
  messages (generation setOptions completeStream completeText aborted
              decoder0 decode s) = messages s
  \/ exists answer,
       messages (generation setOptions completeStream completeText aborted
                   decoder0 decode s)
       = messages s ++ [{| role := assistant; content := answer |}].
Proof.
  unfold generation.
  destruct (completeStream (setOptions (world s) false) (messages s) streamOptions)
    as [w1 [message|[chunks ending]]].
  - destruct (onError_messages s w1 [] message); eauto.
  - destruct (fold_left (consumeChunk decode) chunks (decoder0, [], []))
      as [[d acc] shown].
    destruct ending as [message|].
    + destruct (onError_messages s w1 acc message); eauto.
    + destruct ((len acc =? 0) && negb (aborted w1)).
      * destruct (completeText w1 (messages s) fallbackOptions)
          as [w2 [message|fallback]].
        -- destruct (onError_messages s w2 acc message); eauto.
        -- right. eexists. reflexivity.
      * right. eexists. reflexivity.
Qed.

(** X16. A turn only appends to the history: the messages it finds stay
    in place, the user message comes next, its content beginning with the
    text sent, and at most one assistant message follows. *)
Theorem runChatTurn_appends (doc : DocState) (s : Session World)
    (userText : jsstring) :
  exists contextToInject tail,
    messages (runChatTurn setOptions embed completeStream completeText aborted
                decoder0 decode doc s userText)
    = messages s
      ++ {| role := user; content := userText ++ contextToInject |} :: tail
    /\ (tail = [] \/ exists answer,
                       tail = [{| role := assistant; content := answer |}]).
Proof.
  unfold runChatTurn.
  pose proof (retrieval_messages doc s userText) as Hm.
  destruct (retrieval setOptions embed doc s userText) as [s1 ctx]. simpl in Hm.
  exists ctx.
  match goal with
  | |- context [generation _ _ _ _ _ _ ?s0] =>
      destruct (generation_messages s0) as [H|[answer H]]; rewrite H
  end; simpl; rewrite Hm.
  - exists []. split; [reflexivity | now left].
  - exists [{| role := assistant; content := answer |}].
    rewrite <- app_assoc. split; [reflexivity | right; eauto].
Qed.

(** ** The user message *)

Lemma generation_warning (s : Session World) :
  warning (generation setOptions completeStream completeText aborted
             decoder0 decode s) = warning s.
Proof.
  unfold generation, onError, onDone.
  destruct (completeStream (setOptions (world s) false) (messages s) streamOptions)
    as [w1 [message|[stream ending]]].
  - destruct (aborted w1); reflexivity.
  - destruct (fold_left (consumeChunk decode) stream (decoder0, [], []))
      as [[d acc] shown].
    destruct ending as [message|]; [destruct (aborted w1); reflexivity|].
    destruct ((len acc =? 0) && negb (aborted w1)); [|reflexivity].
    destruct (completeText w1 (messages s) fallbackOptions)
      as [w2 [message|fallback]]; [destruct (aborted w2)|]; reflexivity.
Qed.

Lemma user_message_position (w : World) (history : list ChatMessage)
    (warn content : jsstring) :
  nth_error
    (messages (generation setOptions completeStream completeText aborted
                 decoder0 decode
                 {| world := w;
                    messages := history ++ [{| role := user; content := content |}];
                    warning := warn; assistantDiv := [] |}))
    (length history)
  = Some {| role := user; content := content |}.
Proof.
  match goal with
  | |- context [generation _ _ _ _ _ _ ?s0] =>
      destruct (generation_messages s0) as [H|[answer H]]; rewrite H
  end; simpl.
  - rewrite nth_error_app2 by lia. now rewrite Nat.sub_diag.
  - rewrite <- app_assoc. rewrite nth_error_app2 by lia. now rewrite Nat.sub_diag.
Qed.

(** X17. The user message a turn pushes on the history is the text sent
    and nothing else when the index holds no chunk, when it holds chunks
    without embeddings, or when the query embedding fails; the warning line
    is then left as it was, asks for a new upload, or reports the error.
    When the query embedding is returned it is the text sent followed by
    the context block of the first three entries of the ranking, a
    permutation of the scored fragments that is in ranked order when no
    score is NaN. *)
Theorem runChatTurn_user_message (doc : DocState) (s : Session World)
    (userText : jsstring) :
  (chunks doc = [] ->
   nth_error (messages (runChatTurn setOptions embed completeStream completeText
                          aborted decoder0 decode doc s userText))
     (length (messages s))
   = Some {| role := user; content := userText |}
   /\ warning (runChatTurn setOptions embed completeStream completeText
                 aborted decoder0 decode doc s userText) = warning s)
  /\ (chunks doc <> [] -> embeddings doc = [] ->
      nth_error (messages (runChatTurn setOptions embed completeStream completeText
                             aborted decoder0 decode doc s userText))
        (length (messages s))
      = Some {| role := user; content := userText |}
      /\ warning (runChatTurn setOptions embed completeStream completeText
                    aborted decoder0 decode doc s userText) = contextSkippedWarning)
  /\ (forall w message,
        chunks doc <> [] -> embeddings doc <> [] ->
        embed (setOptions (world s) true) userText = (w, inl message) ->
        nth_error (messages (runChatTurn setOptions embed completeStream completeText
                               aborted decoder0 decode doc s userText))
          (length (messages s))
        = Some {| role := user; content := userText |}
        /\ warning (runChatTurn setOptions embed completeStream completeText
                      aborted decoder0 decode doc s userText)
           = lit "RAG Error: " ++ message)
  /\ (forall w queryEmbedding,
        chunks doc <> [] -> embeddings doc <> [] ->
        embed (setOptions (world s) true) userText = (w, inr queryEmbedding) ->
        exists ranking,
          Permutation ranking (scoresFrom queryEmbedding (embeddings doc) 0)
          /\ (Forall (fun e => is_nan (cosineSimilarity queryEmbedding e) = false)
                (embeddings doc) -> ranked ranking)
          /\ nth_error (messages (runChatTurn setOptions embed completeStream
                                    completeText aborted decoder0 decode doc s
                                    userText))
               (length (messages s))
             = Some {| role := user;
                       content := userText
                                  ++ contextBlock (chunks doc) (firstn 3 ranking) |}
          /\ warning (runChatTurn setOptions embed completeStream completeText
                        aborted decoder0 decode doc s userText) = warning s).
Proof.
  unfold runChatTurn, retrieval.
  split; [|split; [|split]].
  - intros ->. simpl. rewrite app_nil_r.
    split; [apply user_message_position | now rewrite generation_warning].
  - intros Hc ->. destruct (chunks doc) as [|c cs]; [congruence|]. simpl.
    rewrite app_nil_r. rewrite generation_warning. split; [|reflexivity].
    apply user_message_position.
  - intros w message Hc He Hq.
    destruct (chunks doc) as [|c cs]; [congruence|].
    destruct (embeddings doc) as [|e es]; [congruence|]. simpl.
    rewrite Hq. simpl. rewrite app_nil_r. rewrite generation_warning.
    split; [|reflexivity].
    apply user_message_position.
  - intros w q Hc He Hq.
    destruct (SimilarityProofs.retrieval_ranking q World setOptions embed doc s
                userText w Hc He Hq) as [ranking [Hperm [Hranked Hret]]].
    exists ranking. split; [exact Hperm|]. split; [exact Hranked|].
    unfold retrieval in Hret. rewrite Hret.
    rewrite generation_warning. split; [|reflexivity].
    apply user_message_position.
Qed.

(** ** A stream that fails *)

(** X18. When the iteration over the stream throws: if the turn is
    cancelled, the bubble shows what was accumulated followed by the
    [[stopped]] marker and that text is pushed on the history as the
    assistant message; if it is not, the bubble shows the error message and
    the history is left without an assistant message. *)
Theorem generation_interrupted (s : Session World) (w1 : World)
    (stream : list StreamChunk) (message : jsstring) :
  completeStream (setOptions (world s) false) (messages s) streamOptions
  = (w1, inr (stream, Some message)) ->
  (aborted w1 = true ->
   assistantDiv (generation setOptions completeStream completeText aborted
                   decoder0 decode s)
   = accumulated decoder0 decode stream ++ [10%N; 10%N] ++ lit "[stopped]"
   /\ messages (generation setOptions completeStream completeText aborted
                  decoder0 decode s)
      = messages s
        ++ [{| role := assistant;
               content := accumulated decoder0 decode stream |}])
  /\ (aborted w1 = false ->
      assistantDiv (generation setOptions completeStream completeText aborted
                      decoder0 decode s)
      = lit "Error: " ++ message
      /\ messages (generation setOptions completeStream completeText aborted
                     decoder0 decode s) = messages s).
Proof.
  intros Hsent. unfold generation. rewrite Hsent.
  destruct (ChatProofs.fold_consume_accumulated Decoder decoder0 decode stream)
    as [d [shown ->]].
  unfold onError. split; intros ->; split; reflexivity.
Qed.

(** ** The send button *)

(** X19. A click on the send button with an input made of whitespace
    only starts no turn: the session is unchanged and the input box keeps
    its content. *)
Theorem onSend_blank (inputValue : jsstring) (wllama : bool) (doc : DocState)
    (s : Session World) :
  blank inputValue ->
  onSend setOptions embed completeStream completeText aborted decoder0 decode
    inputValue wllama doc s = (s, inputValue).
Proof.
  intros H. unfold onSend. rewrite (trim_blank inputValue H). reflexivity.
Qed.

End Turn.

Lemma generation_interrupted_witness :
  assistantDiv (generation keepOptions cutStream noText signalled tt byteDecoder
                  stoppedSession)
  = lit "Par" ++ [10%N; 10%N] ++ lit "[stopped]"
  /\ messages (generation keepOptions cutStream noText signalled tt byteDecoder
                 stoppedSession)
     = messages stoppedSession ++ [{| role := assistant; content := lit "Par" |}].
Proof.
  destruct (generation_interrupted bool keepOptions cutStream noText signalled
              unit tt byteDecoder stoppedSession true
              [{| piece := Some [80%N; 97%N; 114%N]; currentText := None |}]
              (lit "network error") eq_refl) as [H _].
  exact (H eq_refl).
Defined.

Lemma onSend_blank_witness :
  onSend quietSetOptions (embedAs [1%float]) emptyStream helloText neverAborted
    tt byteDecoder [32%N; 9%N; 10%N] true (fourFragments unitStored) freshSession
  = (freshSession, [32%N; 9%N; 10%N]).
Proof.
  apply (onSend_blank unit quietSetOptions (embedAs [1%float]) emptyStream
           helloText neverAborted unit tt byteDecoder).
  repeat constructor.
Defined.

End ChatExtras.

(* ===================================================================== *)
(** * Loading one model after another *)
(* ===================================================================== *)

Module ModelSwitchExtras.

Import ModelSwitch ModelSwitchProofs.

Lemma stale_after_switch (d : DocState) (selected : jsstring) :
  chunks d <> [] -> modelUrl d <> selected -> indexIsStale d selected = true.
Proof.
  intros Hc Hne. unfold indexIsStale. rewrite (eqb_neq _ _ Hne).
  destruct (chunks d); [congruence|]. reflexivity.
Qed.

Lemma fresh_when_same (d : DocState) :
  indexIsStale d (modelUrl d) = false.
Proof.
  unfold indexIsStale. rewrite (proj2 (eqb_eq _ _) eq_refl).
  apply andb_false_r.
Qed.

(** X20. Whatever its arguments and whether the load succeeds, fails or
    is ignored, [loadModel] leaves the fragments, the document name and the
    model recorded in the index as they were, and the embeddings either as
    they were or empty; unless the call is ignored, the load button is
    enabled again when it returns. *)
Theorem loadModel_keeps_document (forcedNBatch : option Z) (selected : jsstring)
    (loadResolves : bool) (app : App) :
  chunks (docState (loadModel forcedNBatch selected loadResolves app))
  = chunks (docState app)
  /\ name (docState (loadModel forcedNBatch selected loadResolves app))
     = name (docState app)
  /\ modelUrl (docState (loadModel forcedNBatch selected loadResolves app))
     = modelUrl (docState app)
  /\ (embeddings (docState (loadModel forcedNBatch selected loadResolves app))
      = embeddings (docState app)
      \/ embeddings (docState (loadModel forcedNBatch selected loadResolves app))
         = [])
  /\ (btnLoadDisabled app && negb (wllama app) = false ->
      btnLoadDisabled (loadModel forcedNBatch selected loadResolves app) = false).
Proof.
  unfold loadModel.
  destruct (btnLoadDisabled app && negb (wllama app)).
  - repeat split; auto. discriminate.
  - destruct (negb (truthy selected)); [repeat split; auto|].
    destruct (negb loadResolves); [repeat split; auto|].
    destruct (indexIsStale (docState app) selected); repeat split; auto.
Qed.

(** X21. Loading another model and then the model of the index again:
    the first load empties the embeddings and shows the warning that asks
    for a new upload; after the second load the embeddings are still empty
    although the selected model is the one recorded in the index, and the
    warning has been cleared. *)
Theorem loadModel_switch_back (first second : option Z) (other : jsstring)
    (app : App) :
  btnLoadDisabled app && negb (wllama app) = false ->
  other <> [] ->
  chunks (docState app) <> [] ->
  modelUrl (docState app) <> [] ->
  modelUrl (docState app) <> other ->
  embeddings (docState (loadModel first other true app)) = []
  /\ embeddings (docState (loadModel second (modelUrl (docState app)) true
                             (loadModel first other true app))) = []
  /\ modelUrl (docState (loadModel second (modelUrl (docState app)) true
                           (loadModel first other true app)))
     = modelUrl (docState app)
  /\ warn (loadModel first other true app) = modelSwitchedWarning
  /\ warn (loadModel second (modelUrl (docState app)) true
             (loadModel first other true app)) = [].
Proof.
  intros Hrun Hother Hchunks Hurl Hne.
  assert (loadModel first other true app
          = {| wllama := true;
               activeNBatch := match first with
                               | Some n => if n =? 0 then 1024 else n
                               | None => 1024
                               end;
               docState := clearEmbeddings (docState app);
               warn := modelSwitchedWarning;
               btnLoadDisabled := false; btnSendDisabled := false;
               btnLoadText := lit "Switch model" |}) as E1.
  { unfold loadModel. rewrite Hrun.
    destruct other as [|c other]; [congruence|]. cbn [truthy negb].
    now rewrite (stale_after_switch _ _ Hchunks Hne). }
  rewrite E1. split; [reflexivity|].
  unfold loadModel at 1 2 3. cbn [btnLoadDisabled wllama andb negb].
  destruct (modelUrl (docState app)) as [|c url] eqn:Eu; [congruence|].
  cbn [truthy negb docState].
  replace (indexIsStale (clearEmbeddings (docState app)) (c :: url)) with false.
  - cbn [docState warn]. unfold clearEmbeddings. cbn [embeddings modelUrl].
    repeat split; assumption.
  - symmetry. rewrite <- Eu.
    apply (fresh_when_same (clearEmbeddings (docState app))).
Qed.

Lemma loadModel_switch_back_witness :
  embeddings (docState (loadModel None qwen true indexedApp)) = []
  /\ embeddings (docState (loadModel None tinyllama true
                             (loadModel None qwen true indexedApp))) = []
  /\ warn (loadModel None tinyllama true (loadModel None qwen true indexedApp))
     = [].
Proof.
  destruct (loadModel_switch_back None None qwen indexedApp eq_refl
              ltac:(discriminate) ltac:(discriminate) ltac:(discriminate)
              ltac:(discriminate)) as [Hfirst [He [_ [_ Hw]]]].
  split; [exact Hfirst|]. split; [exact He | exact Hw].
Defined.

End ModelSwitchExtras.

(* ===================================================================== *)
(** * The model catalogue *)
(* ===================================================================== *)

Module CatalogProofs.

Import Catalog.

Lemma starts_with_prefix (pat s : jsstring) :
  starts_with pat s = true <-> exists rest, s = pat ++ rest.
Proof.
  revert s. induction pat as [|p pat IH]; intros s; simpl.
  - split; [intros _; now exists s | reflexivity].
  - destruct s as [|c s].
    + split; [discriminate | intros [rest H]; discriminate].
    + rewrite andb_true_iff, N.eqb_eq, IH. split.
      * intros [-> [rest ->]]. now exists rest.
      * intros [rest H]. injection H as -> ->. split; [reflexivity | now exists rest].
Qed.

Lemma endsWith_suffix (s suffix : jsstring) :
  endsWith s suffix = true <-> exists stem, s = stem ++ suffix.
Proof.
  unfold endsWith. rewrite starts_with_prefix. split.
  - intros [rest H]. exists (rev rest).
    rewrite <- (rev_involutive s), H, rev_app_distr, rev_involutive. reflexivity.
  - intros [stem ->]. exists (rev stem). apply rev_app_distr.
Qed.

Lemma replace_eq (pat rep s : jsstring) :
  replace pat rep s
  = if starts_with pat s then rep ++ skipn (length pat) s
    else match s with
         | [] => []
         | c :: s' => c :: replace pat rep s'
         end.
Proof. destruct s; reflexivity. Qed.

Lemma skipn_own_length (pat rest : jsstring) :
  skipn (length pat) (pat ++ rest) = rest.
Proof. induction pat; simpl; auto. Qed.

(** [replace] rewrites the first occurrence and nothing after it. *)
Lemma replace_first (pat rep stem rest : jsstring) :
  (forall k, (k < length stem)%nat ->
             starts_with pat (skipn k (stem ++ pat ++ rest)) = false) ->
  replace pat rep (stem ++ pat ++ rest) = stem ++ rep ++ rest.
Proof.
  induction stem as [|c stem IH]; intros H.
  - rewrite replace_eq. simpl app.
    rewrite (proj2 (starts_with_prefix pat (pat ++ rest)))
      by (now exists rest).
    now rewrite skipn_own_length.
  - assert (starts_with pat ((c :: stem) ++ pat ++ rest) = false) as H0
      by (apply (H 0%nat); simpl; lia).
    rewrite replace_eq, H0. simpl. f_equal.
    apply IH. intros k Hk. apply (H (S k)). simpl. lia.
Qed.

Lemma split_nonempty (sep : codeUnit) (s : jsstring) : split sep s <> [].
Proof.
  destruct s as [|c s]; simpl; [discriminate|].
  destruct (c =? sep)%N; [discriminate|].
  destruct (split sep s); discriminate.
Qed.

Lemma split_whole (sep : codeUnit) (s : jsstring) :
  ~ In sep s -> split sep s = [s].
Proof.
  induction s as [|c s IH]; intros H; simpl; [reflexivity|].
  destruct (c =? sep)%N eqn:E.
  - apply N.eqb_eq in E. exfalso. apply H. now left.
  - rewrite IH; [reflexivity|]. intros Hin. apply H. now right.
Qed.

Lemma split_app (sep : codeUnit) (s t : jsstring) :
  split sep (s ++ sep :: t) = split sep s ++ split sep t.
Proof.
  induction s as [|c s IH]; simpl.
  - now rewrite N.eqb_refl.
  - destruct (c =? sep)%N; rewrite IH; [reflexivity|].
    pose proof (split_nonempty sep s) as Hne.
    destruct (split sep s) as [|seg parts]; [congruence | reflexivity].
Qed.

Lemma last_app (A : Type) (l l' : list A) (d : A) :
  l' <> [] -> last (l ++ l') d = last l' d.
Proof.
  intros H. induction l as [|x l IH]; [reflexivity|].
  simpl. destruct (l ++ l') eqn:E; [|exact IH].
  apply app_eq_nil in E. destruct E as [_ E]. contradiction.
Qed.

Lemma pop_path (dir f : jsstring) :
  ~ In 47%N f -> pop (split 47%N (dir ++ 47%N :: f)) = f.
Proof.
  intros H. unfold pop. rewrite split_app, last_app by apply split_nonempty.
  now rewrite (split_whole _ _ H).
Qed.

Lemma optionName_file (stem rest : jsstring) :
  ~ In 47%N (stem ++ lit ".gguf" ++ rest) ->
  (forall k, (k < length stem)%nat ->
             starts_with (lit ".gguf") (skipn k (stem ++ lit ".gguf" ++ rest))
             = false) ->
  optionName (lit "/models/" ++ stem ++ lit ".gguf" ++ rest) = stem ++ rest.
Proof.
  intros Hslash Hfirst. unfold optionName.
  change (lit "/models/" ++ stem ++ lit ".gguf" ++ rest)
    with (lit "/models" ++ 47%N :: (stem ++ lit ".gguf" ++ rest)).
  rewrite (pop_path _ _ Hslash).
  now rewrite (replace_first _ [] stem rest Hfirst).
Qed.

Lemma optionName_final (f : jsstring) :
  ~ In 47%N f -> onlyFinal (lit ".gguf") f ->
  optionName (lit "/models/" ++ f) = stemOf f.
Proof.
  intros Hslash [stem [-> Hfirst]].
  pose proof (optionName_file stem []) as H. rewrite !app_nil_r in H.
  rewrite (H Hslash Hfirst). unfold stemOf.
  rewrite length_app. simpl length.
  replace (length stem + 5 - 5)%nat with (length stem + 0)%nat by lia.
  now rewrite firstn_app_2, app_nil_r.
Qed.

(** X22. The listing of the models directory: nothing when the directory
    does not exist; otherwise a path is listed exactly when it is
    [/models/] followed by an entry of the directory whose name is some stem
    followed by [.gguf]. *)
Theorem listModels_entries :
  listModels None = []
  /\ forall (entries : list jsstring) (m : jsstring),
       In m (listModels (Some entries))
       <-> exists stem,
             In (stem ++ lit ".gguf") entries
             /\ m = lit "/models/" ++ stem ++ lit ".gguf".
Proof.
  split; [reflexivity|]. intros entries m. unfold listModels.
  rewrite in_map_iff. split.
  - intros [f [<- Hf]]. apply filter_In in Hf. destruct Hf as [Hin He].
    apply endsWith_suffix in He. destruct He as [stem ->]. now exists stem.
  - intros [stem [Hin ->]]. exists (stem ++ lit ".gguf"). split; [reflexivity|].
    apply filter_In. split; [exact Hin|]. apply endsWith_suffix. now exists stem.
Qed.

(** X23. The label of a listed model gives the file name back: for a
    file name without [/] in which [.gguf] occurs at the end and nowhere
    before, the label of [/models/<file>] followed by [.gguf] is the file
    name. *)
Theorem optionName_round_trip (f : jsstring) :
  ~ In 47%N f ->
  onlyFinal (lit ".gguf") f ->
  optionName (lit "/models/" ++ f) ++ lit ".gguf" = f.
Proof.
  intros Hslash [stem [-> Hfirst]].
  pose proof (optionName_file stem []) as H. rewrite !app_nil_r in H.
  now rewrite (H Hslash Hfirst).
Qed.

Lemma optionName_round_trip_witness :
  optionName (lit "/models/tinyllama-q4.gguf") ++ lit ".gguf"
  = lit "tinyllama-q4.gguf".
Proof.
  apply (optionName_round_trip (lit "tinyllama-q4.gguf")).
  - vm_compute. intuition discriminate.
  - exists (lit "tinyllama-q4"). split; [reflexivity|].
    intros k Hk. simpl in Hk.
    do 12 (destruct k as [|k]; [reflexivity|]). lia.
Defined.

(** X24. Only the first [.gguf] of a file name is removed from its
    label: when the name is a stem in which [.gguf] does not begin,
    followed by [.gguf] and by a rest, the label is the stem followed by the
    rest. *)
Theorem optionName_first_occurrence (stem rest : jsstring) :
  ~ In 47%N (stem ++ lit ".gguf" ++ rest) ->
  (forall k, (k < length stem)%nat ->
             starts_with (lit ".gguf") (skipn k (stem ++ lit ".gguf" ++ rest))
             = false) ->
  optionName (lit "/models/" ++ stem ++ lit ".gguf" ++ rest) = stem ++ rest.
Proof. exact (optionName_file stem rest). Qed.

Lemma optionName_first_occurrence_witness :
  optionName (lit "/models/a.gguf.gguf") = lit "a.gguf".
Proof.
  apply (optionName_first_occurrence (lit "a") (lit ".gguf")).
  - vm_compute. intuition discriminate.
  - intros k Hk. simpl in Hk. destruct k as [|k]; [reflexivity | lia].
Defined.

Lemma filter_markup (files : list jsstring) :
  (forall f, In f files -> ~ In 47%N f /\ onlyFinal (lit ".gguf") f) ->
  map optionMarkup (map (fun f => lit "/models/" ++ f) files)
  = map (fun f => lit "<option value=" ++ [34%N] ++ lit "/models/" ++ f
                  ++ [34%N] ++ lit ">" ++ stemOf f ++ lit "</option>") files.
Proof.
  intros H. rewrite map_map. apply map_ext_in. intros f Hf.
  destruct (H f Hf) as [Hslash Hfinal]. unfold optionMarkup.
  rewrite (optionName_final f Hslash Hfinal). now rewrite <- !app_assoc.
Qed.

(** X25. The selector after a refresh answered by the listing of a
    directory whose entries hold no [/] and hold [.gguf], if at the end,
    nowhere before: with no [.gguf] entry its markup is kept; otherwise it
    is one option per [.gguf] entry, in directory order, whose value is
    [/models/<entry>] and whose label is the entry without its extension. *)
Theorem refreshModelList_listing (entries : list jsstring) (innerHTML : jsstring) :
  (forall f, In f entries -> ~ In 47%N f) ->
  (forall f, In f entries -> endsWith f (lit ".gguf") = true ->
             onlyFinal (lit ".gguf") f) ->
  refreshModelList (Some (listModels (Some entries))) innerHTML
  = match filter (fun f => endsWith f (lit ".gguf")) entries with
    | [] => innerHTML
    | files =>
        join []
          (map (fun f => lit "<option value=" ++ [34%N] ++ lit "/models/" ++ f
                         ++ [34%N] ++ lit ">" ++ stemOf f ++ lit "</option>")
             files)
    end.
Proof.
  intros Hslash Hfinal. unfold refreshModelList, listModels.
  assert (forall f, In f (filter (fun f => endsWith f (lit ".gguf")) entries) ->
                    ~ In 47%N f /\ onlyFinal (lit ".gguf") f) as H.
  { intros f Hf. apply filter_In in Hf. destruct Hf as [Hin He]. auto. }
  destruct (filter (fun f => endsWith f (lit ".gguf")) entries) as [|f files];
    [reflexivity|].
  rewrite <- (filter_markup (f :: files) H). reflexivity.
Qed.

Lemma refreshModelList_listing_witness :
  refreshModelList (Some (listModels (Some modelsDir))) (lit "<option>-</option>")
  = lit "<option value=" ++ [34%N] ++ lit "/models/tinyllama-q4.gguf" ++ [34%N]
    ++ lit ">tinyllama-q4</option>"
    ++ lit "<option value=" ++ [34%N] ++ lit "/models/qwen2-0.5b-q4.gguf" ++ [34%N]
    ++ lit ">qwen2-0.5b-q4</option>".
Proof.
  etransitivity; [apply (refreshModelList_listing modelsDir) | reflexivity].
  - intros f [<-|[<-|[<-|[]]]]; vm_compute; intuition discriminate.
  - intros f [<-|[<-|[<-|[]]]] He.
    + exists (lit "tinyllama-q4"). split; [reflexivity|].
      intros k Hk. simpl in Hk.
      do 12 (destruct k as [|k]; [reflexivity|]). lia.
    + discriminate He.
    + exists (lit "qwen2-0.5b-q4"). split; [reflexivity|].
      intros k Hk. simpl in Hk.
      do 13 (destruct k as [|k]; [reflexivity|]). lia.
Defined.

End CatalogProofs.
